(** * crmint: pipelines, jobs, start conditions and params

    A shallow embedding of [backends/core/models.py]: the [Pipeline] and
    [Job] state machines, the start-condition gate of [Job.start], the
    worker fan-in counters, and the value resolver [Param.val].

    The database session is one shared store ([World]); a row is addressed
    by its primary key, so that two handles on the same row see each
    other's updates, as with the ORM's identity map.  What the module
    takes from outside the repository (the builtins [int], [float], [str]
    and [simpleeval.simple_eval]) is a [Runtime] record the development is
    parameterised by. *)

From stdpp Require Import base list gmap strings.
From Stdlib Require Import ZArith Ascii String DecimalString Lia.
From Corelib Require Import PrimFloat.

Open Scope string_scope.
Open Scope Z_scope.

(** ** Outcomes of a call *)

(** The exception classes the module distinguishes: the two caught by
    [Job.get_ready], the [AttributeError] of a [None] relation, and any
    other exception. *)
Inductive exn : Type :=
  | InvalidExpression
  | TypeError
  | AttributeError
  | OtherError (msg : string).

(** A call returns, raises, or (in the model only) exhausts the recursion
    budget it was given. *)
Inductive result (A : Type) : Type :=
  | Ok (a : A)
  | Raise (e : exn)
  | OutOfFuel.
Arguments Ok {A} a.
Arguments Raise {A} e.
Arguments OutOfFuel {A}.

(** Sequencing: an exception (or an exhausted budget) of the first call
    skips the rest.  Written [x ← r; k] below. *)
#[global] Instance result_ret : MRet result := fun A a => Ok a.

#[global] Instance result_bind : MBind result := fun A B k r =>
  match r with
  | Ok a => k a
  | Raise e => Raise e
  | OutOfFuel => OutOfFuel
  end.

(** ** Data model *)

(** [status] is a [String(50)] column; these are the values the module
    writes or tests ([Finished] is only ever tested, by [Pipeline.start]
    and [Pipeline.start_single_job]). *)
Inductive Status : Type :=
  | Idle | Waiting | Running | Stopping | Finished | Succeeded | Failed.

#[global] Instance Status_eq_dec : EqDecision Status.
Proof. solve_decision. Defined.

(** [StartCondition.condition]; [OtherCondition] is any string that
    [Job.start] matches against none of its three branches. *)
Inductive Condition : Type :=
  | Success | Fail | Whatever | OtherCondition.

(** [Param.type]; [TString] stands for every type that [Param.val] returns
    as expanded text. *)
Inductive ParamType : Type :=
  | TBoolean | TNumber | TString | TStringList | TNumberList.

#[global] Instance ParamType_eq_dec : EqDecision ParamType.
Proof. solve_decision. Defined.

Module Pipeline.
Record t : Type := mk {
  id : Z;
  name : string;
  status : Status;
}.
End Pipeline.

Module Job.
Record t : Type := mk {
  id : Z;
  name : string;
  status : Status;
  worker_class : string;
  pipeline_id : option Z;
  enqueued_workers_count : Z;
  succeeded_workers_count : Z;
  failed_workers_count : Z;
}.

Definition set_status (s : Status) (j : t) : t :=
  mk (id j) (name j) s (worker_class j) (pipeline_id j)
     (enqueued_workers_count j) (succeeded_workers_count j)
     (failed_workers_count j).

Definition set_counts (e s f : Z) (j : t) : t :=
  mk (id j) (name j) (status j) (worker_class j) (pipeline_id j) e s f.

(** The [finished_workers_count] property. *)
Definition finished_workers_count (j : t) : Z :=
  succeeded_workers_count j + failed_workers_count j.
End Job.

Module StartCondition.
Record t : Type := mk {
  id : Z;
  job_id : option Z;
  preceding_job_id : option Z;
  condition : Condition;
}.
End StartCondition.

Module Param.
Record t : Type := mk {
  id : Z;
  name : string;
  type : ParamType;
  pipeline_id : option Z;
  job_id : option Z;
  value : option string;
}.
End Param.

(** Python values a param resolves to, or an expression evaluates to.
    [VOther] is an object of any other type, kept as its [str()]. *)
Inductive Num : Type :=
  | NInt (z : Z)
  | NFloat (f : float).

Inductive Value : Type :=
  | VBool (b : bool)
  | VNum (n : Num)
  | VStr (s : string)
  | VStrList (l : list string)
  | VNumList (l : list Num)
  | VOther (str : string).

(** The task handed to [taskqueue.add] by [Job.enqueue] (the random name
    suffix and the countdown are left out). *)
Record Task : Type := mkTask {
  task_job_id : Z;
  task_worker_class : string;
  task_worker_params : gmap string Value;
}.

(** What a call does besides updating rows, newest first.  [EvCascade]
    records an entry into [Job._start_dependent_jobs]. *)
Inductive Event : Type :=
  | EvTask (t : Task)
  | EvMail (pipeline_id : Z)
  | EvLog (pipeline_id : option Z) (job_id : Z) (param_id : Z) (e : exn)
  | EvCascade (job_id : Z).

Record World : Type := mkWorld {
  pipelines : list Pipeline.t;
  jobs : list Job.t;
  start_conditions : list StartCondition.t;
  params : list Param.t;
  events : list Event;
}.

Definition with_jobs (js : list Job.t) (w : World) : World :=
  mkWorld (pipelines w) js (start_conditions w) (params w) (events w).

Definition with_pipelines (ps : list Pipeline.t) (w : World) : World :=
  mkWorld ps (jobs w) (start_conditions w) (params w) (events w).

Definition emit (e : Event) (w : World) : World :=
  mkWorld (pipelines w) (jobs w) (start_conditions w) (params w)
          (e :: events w).

(** ** Queries on the store *)

Definition find_job (w : World) (jid : Z) : option Job.t :=
  List.find (fun j => Job.id j =? jid) (jobs w).

Definition find_pipeline (w : World) (pid : Z) : option Pipeline.t :=
  List.find (fun p => Pipeline.id p =? pid) (pipelines w).

(** A nullable foreign key against a primary key. *)
Definition fk_is (fk : option Z) (pk : Z) : bool :=
  match fk with
  | Some k => k =? pk
  | None => false
  end.

(** The row of key [k] (the first one, should the key repeat) rewritten by
    [f]: [self.update(...)] and [self.save()] write the row of the object. *)
Fixpoint update_row {A : Type} (key : A -> Z) (k : Z) (f : A -> A)
    (l : list A) : list A :=
  match l with
  | [] => []
  | x :: l' => if key x =? k then f x :: l' else x :: update_row key k f l'
  end.

Definition update_job (jid : Z) (f : Job.t -> Job.t) (w : World) : World :=
  with_jobs (update_row Job.id jid f (jobs w)) w.

Definition set_pipeline_status (s : Status) (p : Pipeline.t) : Pipeline.t :=
  Pipeline.mk (Pipeline.id p) (Pipeline.name p) s.

Definition update_pipeline (pid : Z) (s : Status) (w : World) : World :=
  with_pipelines
    (update_row Pipeline.id pid (set_pipeline_status s) (pipelines w)) w.

(** [Pipeline.jobs]: the jobs whose [pipeline_id] is the pipeline's. *)
Definition pipeline_jobs (w : World) (pid : Z) : list Job.t :=
  List.filter (fun j => fk_is (Job.pipeline_id j) pid) (jobs w).

(** [Job.start_conditions]: the edges whose [job_id] is the job's. *)
Definition job_start_conditions (w : World) (jid : Z) : list StartCondition.t :=
  List.filter (fun sc => fk_is (StartCondition.job_id sc) jid)
              (start_conditions w).

(** [StartCondition.preceding_job]. *)
Definition preceding_job (w : World) (sc : StartCondition.t) : option Job.t :=
  match StartCondition.preceding_job_id sc with
  | Some k => find_job w k
  | None => None
  end.

(** Keeps the first occurrence of each id. *)
Fixpoint dedup_ids (seen : list Z) (l : list Z) : list Z :=
  match l with
  | [] => []
  | x :: l' =>
      if existsb (Z.eqb x) seen then dedup_ids seen l'
      else x :: dedup_ids (x :: seen) l'
  end.

(** The dependent job an edge leads to from the job [jid], if any. *)
Definition edge_target (w : World) (jid : Z) (sc : StartCondition.t) : list Z :=
  if fk_is (StartCondition.preceding_job_id sc) jid then
    match StartCondition.job_id sc with
    | Some d => match find_job w d with Some _ => [d] | None => [] end
    | None => []
    end
  else [].

(** [Job.dependent_jobs]: the jobs joined through [start_conditions] on
    [preceding_job_id == self.id], each job once. *)
Definition dependent_jobs (w : World) (jid : Z) : list Z :=
  dedup_ids [] (flat_map (edge_target w jid) (start_conditions w)).

(** ** Text helpers of the value resolver

    A Python 2 [str] is a sequence of bytes, as a [string] is here. *)

Definition newline : ascii := "010"%char.

(** The characters [str.strip()] removes. *)
Definition is_space (c : ascii) : bool :=
  let n := nat_of_ascii c in
  ((9 <=? n) && (n <=? 13))%nat || (n =? 32)%nat.

(** [not l.strip()]: the line holds nothing but whitespace. *)
Fixpoint is_blank (l : string) : bool :=
  match l with
  | EmptyString => true
  | String c l' => is_space c && is_blank l'
  end.

(** [s.split('\n')]. *)
Fixpoint split_lines (s : string) : list string :=
  match s with
  | EmptyString => [EmptyString]
  | String c s' =>
      if Ascii.eqb c newline then EmptyString :: split_lines s'
      else match split_lines s' with
           | l :: ls => String c l :: ls
           | [] => [String c EmptyString]
           end
  end.

(** The lazy body [.+?] of [_INLINER_REGEX] once its first character is
    consumed: the shortest run without a newline that is followed by the
    closing bracket; returns the rest of the body. *)
Fixpoint lazy_body (s : string) : option string :=
  match s with
  | EmptyString => None
  | String c s' =>
      if Ascii.eqb c "%" && String.prefix "}" s' then Some EmptyString
      else if Ascii.eqb c newline then None
      else option_map (String c) (lazy_body s')
  end.

(** A match of [_INLINER_REGEX = {%.+?%}] at the start of [s]. *)
Definition match_inliner (s : string) : option string :=
  match s with
  | String c0 (String c1 (String c s')) =>
      if Ascii.eqb c0 "{" && Ascii.eqb c1 "%" && negb (Ascii.eqb c newline)
      then option_map (fun b => "{%" +:+ String c b +:+ "%}") (lazy_body s')
      else None
  | _ => None
  end.

(** [_INLINER_REGEX.findall]: the matches from left to right, the scan
    resuming after each match ([skip] counts the characters of the last
    match still to pass). *)
Fixpoint findall_from (skip : nat) (s : string) : list string :=
  match s with
  | EmptyString => []
  | String c s' =>
      match skip with
      | S k => findall_from k s'
      | O => match match_inliner s with
             | Some m => m :: findall_from (String.length m - 1) s'
             | None => findall_from 0 s'
             end
      end
  end.

Definition findall (s : string) : list string := findall_from 0 s.

(** [inliner[2:-2]]. *)
Definition inner_text (inliner : string) : string :=
  String.substring 2 (String.length inliner - 4) inliner.

(** [value.replace(old, new)] for a non-empty [old]: every occurrence,
    left to right, without overlap. *)
Fixpoint replace_from (skip : nat) (old new s : string) : string :=
  match s with
  | EmptyString => EmptyString
  | String c s' =>
      match skip with
      | S k => replace_from k old new s'
      | O => if String.prefix old s
             then new +:+ replace_from (String.length old - 1) old new s'
             else String c (replace_from 0 old new s')
      end
  end.

Definition replace (old new s : string) : string := replace_from 0 old new s.

(** [dict(pairs)] and repeated [names[k] = v]: a later binding wins. *)
Definition py_dict (l : list (string * Value)) : gmap string Value :=
  fold_left (fun m kv => <[kv.1 := kv.2]> m) l ∅.

(** Stable insertion sort by name, for [order_by='asc(Param.name)']. *)
Fixpoint insert_by_name (p : Param.t) (l : list Param.t) : list Param.t :=
  match l with
  | [] => [p]
  | q :: l' =>
      if String.ltb (Param.name p) (Param.name q) then p :: l
      else q :: insert_by_name p l'
  end.

Definition sort_by_name (l : list Param.t) : list Param.t :=
  fold_left (fun acc p => insert_by_name p acc) l [].

(** ** What the module imports from outside the repository *)

(** The Python builtins and the expression evaluator of [simpleeval], with
    [inline.functions] as its function table:
    - [py_int s] is [int(s)] and [py_float s] is [float(s)], [None] standing
      for [ValueError];
    - [py_str v] is [str(v)];
    - [simple_eval e names] is [simple_eval(e, functions=inline.functions,
      names=names)]. *)
Inductive Evaluation : Type :=
  | EvalOk (v : Value)
  | EvalErr (e : exn).

Record Runtime : Type := mkRuntime {
  py_int : string -> option Z;
  py_float : string -> option float;
  py_str : Value -> string;
  simple_eval : string -> gmap string Value -> Evaluation;
}.

Definition status_in (s : Status) (l : list Status) : bool :=
  existsb (fun s' => bool_decide (s = s')) l.

Definition lookup_job (w : World) (jid : Z) : result Job.t :=
  match find_job w jid with
  | Some j => Ok j
  | None => Raise (OtherError "no such job")
  end.

Definition lookup_pipeline (w : World) (pid : Z) : result Pipeline.t :=
  match find_pipeline w pid with
  | Some p => Ok p
  | None => Raise (OtherError "no such pipeline")
  end.

(** [job.pipeline]: [None] when the foreign key is null or dangling. *)
Definition job_pipeline (w : World) (j : Job.t) : option Pipeline.t :=
  match Job.pipeline_id j with
  | Some pid => find_pipeline w pid
  | None => None
  end.

(** [Param.where(pipeline_id=None, job_id=None).all()]. *)
Definition global_params (w : World) : list Param.t :=
  List.filter
    (fun p => match Param.pipeline_id p, Param.job_id p with
              | None, None => true
              | _, _ => false
              end)
    (params w).

(** [Pipeline.params], ordered by name. *)
Definition pipeline_params (w : World) (pid : Z) : list Param.t :=
  sort_by_name (List.filter (fun p => fk_is (Param.pipeline_id p) pid) (params w)).

(** [Job.params]. *)
Definition job_params (w : World) (jid : Z) : list Param.t :=
  List.filter (fun p => fk_is (Param.job_id p) jid) (params w).

(** [{'True': True, 'False': False}]. *)
Definition constants : gmap string Value :=
  <["False" := VBool false]> (<["True" := VBool true]> ∅).

Section Model.
Context (rt : Runtime).

(** ** Value resolver *)

Definition _parse_num (s : string) : Num :=
  match py_int rt s with
  | Some z => NInt z
  | None =>
      match py_float rt s with
      | Some f => NFloat f
      | None => NInt 0
      end
  end.

(** [for param in ps: names[param.name] = param.val]. *)
Fixpoint assign_names (val : Param.t -> result Value) (ps : list Param.t)
    (names : gmap string Value) : result (gmap string Value) :=
  match ps with
  | [] => Ok names
  | p :: ps' =>
      v ← val p;
      assign_names val ps' (<[Param.name p := v]> names)
  end.

(** [for inliner in inliners: ...] of [_expand_vars]. *)
Fixpoint expand_inliners (names : gmap string Value) (inliners : list string)
    (value : string) : result string :=
  match inliners with
  | [] => Ok value
  | inliner :: rest =>
      match simple_eval rt (inner_text inliner) names with
      | EvalOk r =>
          expand_inliners names rest (replace inliner (py_str rt r) value)
      | EvalErr e => Raise e
      end
  end.

(** The namespace [_expand_vars] builds for the param [self]; [val] is
    [Param.val] on the params it reads. *)
Definition build_names (val : Param.t -> result Value) (w : World)
    (self : Param.t) : result (gmap string Value) :=
  names ←
    (if bool_decide (Param.job_id self ≠ None)
        || bool_decide (Param.pipeline_id self ≠ None)
     then assign_names val (global_params w) constants
     else Ok constants);
  match Param.job_id self with
  | Some jid =>
      match find_job w jid with
      | None => Raise AttributeError
      | Some j =>
          match job_pipeline w j with
          | None => Raise AttributeError
          | Some p => assign_names val (pipeline_params w (Pipeline.id p)) names
          end
      end
  | None => Ok names
  end.

Definition _expand_vars (val : Param.t -> result Value) (w : World)
    (self : Param.t) (value : option string) : result string :=
  names ← build_names val w self;
  match value with
  | None => Raise TypeError
  | Some v => expand_inliners names (findall v) v
  end.

(** The type coercion at the end of [Param.val]. *)
Definition coerce (ty : ParamType) (val : string) : Value :=
  match ty with
  | TNumber => VNum (_parse_num val)
  | TStringList => VStrList (split_lines val)
  | TNumberList =>
      VNumList (map _parse_num
                    (List.filter (fun l => negb (is_blank l)) (split_lines val)))
  | _ => VStr val
  end.

(** The [val] property; [fuel] bounds the depth of nested [val] reads. *)
Fixpoint Param_val (fuel : nat) (w : World) (self : Param.t) : result Value :=
  match fuel with
  | O => OutOfFuel
  | S fuel' =>
      if bool_decide (Param.type self = TBoolean) then
        Ok (VBool (bool_decide (Param.value self = Some "1")))
      else
        val ← _expand_vars (Param_val fuel' w) w self (Param.value self);
        Ok (coerce (Param.type self) val)
  end.

(** ** Pipeline finalization *)

(** The query of [Pipeline._finish]: the pipeline's jobs left with a null
    [StartCondition] by the outer join on
    [Job.id == StartCondition.preceding_job_id]. *)
Definition finish_query (w : World) (pid : Z) : list Job.t :=
  List.filter
    (fun j =>
       fk_is (Job.pipeline_id j) pid
       && negb (existsb
                  (fun sc => fk_is (StartCondition.preceding_job_id sc) (Job.id j))
                  (start_conditions w)))
    (jobs w).

Definition Pipeline__finish (pid : Z) (w : World) : World :=
  let status :=
    if existsb (fun j => bool_decide (Job.status j = Failed)) (finish_query w pid)
    then Failed else Succeeded in
  emit (EvMail pid) (update_pipeline pid status w).

Definition Pipeline_job_finished (pid : Z) (w : World) : bool * World :=
  if existsb (fun j => negb (status_in (Job.status j) [Succeeded; Failed; Idle]))
             (pipeline_jobs w pid)
  then (false, w)
  else (true, Pipeline__finish pid w).

(** ** Job state machine *)

(** What the loop of [Job.start] over [self.start_conditions] decides;
    the loop only reads until it returns. *)
Inductive Gate : Type :=
  | Proceed
  | Blocked
  | HardFail.

Fixpoint check_start_conditions (w : World) (scs : list StartCondition.t)
    : result Gate :=
  match scs with
  | [] => Ok Proceed
  | sc :: rest =>
      match StartCondition.condition sc with
      | Success =>
          match preceding_job w sc with
          | None => Raise AttributeError
          | Some p =>
              if negb (bool_decide (Job.status p = Succeeded)) then
                if bool_decide (Job.status p = Failed)
                then Ok HardFail else Ok Blocked
              else check_start_conditions w rest
          end
      | Fail =>
          match preceding_job w sc with
          | None => Raise AttributeError
          | Some p =>
              if negb (bool_decide (Job.status p = Failed)) then
                if bool_decide (Job.status p = Succeeded)
                then Ok HardFail else Ok Blocked
              else check_start_conditions w rest
          end
      | Whatever =>
          match preceding_job w sc with
          | None => Raise AttributeError
          | Some p =>
              if negb (status_in (Job.status p) [Succeeded; Failed])
              then Ok Blocked
              else check_start_conditions w rest
          end
      | OtherCondition => check_start_conditions w rest
      end
  end.

(** The exceptions [Job.get_ready] catches. *)
Definition caught (e : exn) : bool :=
  match e with
  | InvalidExpression | TypeError => true
  | _ => false
  end.

(** [for param in self.params: _ = param.val], stopping at the first
    param whose [val] does not return. *)
Inductive Resolution : Type :=
  | AllResolved
  | FailedAt (p : Param.t) (e : exn)
  | Exhausted.

Fixpoint resolve_all (val : Param.t -> result Value) (ps : list Param.t)
    : Resolution :=
  match ps with
  | [] => AllResolved
  | p :: ps' =>
      match val p with
      | Ok _ => resolve_all val ps'
      | Raise e => FailedAt p e
      | OutOfFuel => Exhausted
      end
  end.

Definition Job_get_ready (fuel : nat) (jid : Z) (w : World)
    : result (bool * World) :=
  j ← lookup_job w jid;
  if negb (status_in (Job.status j) [Idle; Succeeded; Failed]) then
    Ok (false, w)
  else
    match resolve_all (Param_val fuel w) (job_params w jid) with
    | FailedAt p e =>
        if caught e
        then Ok (false, emit (EvLog (Job.pipeline_id j) jid (Param.id p) e) w)
        else Raise e
    | Exhausted => OutOfFuel
    | AllResolved => Ok (true, update_job jid (Job.set_status Waiting) w)
    end.

(** [Job.enqueue]; the result is [false] for Python's [False] and [true]
    for the task. *)
Definition Job_enqueue (jid : Z) (worker_class : string)
    (worker_params : gmap string Value) (w : World) : result (bool * World) :=
  j ← lookup_job w jid;
  if negb (bool_decide (Job.status j = Running)) then Ok (false, w)
  else
    match job_pipeline w j with
    | None => Raise AttributeError
    | Some _ =>
        let w1 := emit (EvTask (mkTask jid worker_class worker_params)) w in
        Ok (true,
            update_job jid
              (fun j => Job.set_counts (Job.enqueued_workers_count j + 1)
                          (Job.succeeded_workers_count j)
                          (Job.failed_workers_count j) j)
              w1)
    end.

(** [[(p.name, p.val) for p in ps]]. *)
Fixpoint named_vals (val : Param.t -> result Value) (ps : list Param.t)
    : result (list (string * Value)) :=
  match ps with
  | [] => Ok []
  | p :: ps' =>
      v ← val p;
      vs ← named_vals val ps';
      Ok ((Param.name p, v) :: vs)
  end.

Definition Job_run (fuel : nat) (jid : Z) (w : World) : result World :=
  j ← lookup_job w jid;
  let w1 := update_job jid
              (fun j => Job.set_status Running (Job.set_counts 0 0 0 j)) w in
  worker_params ← named_vals (Param_val fuel w1) (job_params w1 jid);
  '(_, w2) ← Job_enqueue jid (Job.worker_class j) (py_dict worker_params) w1;
  Ok w2.

Definition Job_stop (jid : Z) (w : World) : result (bool * World) :=
  j ← lookup_job w jid;
  if bool_decide (Job.status j = Waiting) then
    Ok (true, update_job jid (Job.set_status Failed) w)
  else if bool_decide (Job.status j = Running) then
    Ok (true, update_job jid (Job.set_status Stopping) w)
  else Ok (false, w).

(** [for job in ds: job.start()]. *)
Fixpoint start_each (start : Z -> World -> result (bool * World))
    (ds : list Z) (w : World) : result World :=
  match ds with
  | [] => Ok w
  | d :: ds' =>
      '(_, w1) ← start d w;
      start_each start ds' w1
  end.

(** [Job._start_dependent_jobs], over the [start] it calls. *)
Definition start_dependent_jobs_with
    (start : Z -> World -> result (bool * World)) (jid : Z) (w : World)
    : result World :=
  let w0 := emit (EvCascade jid) w in
  j ← lookup_job w0 jid;
  w1 ← start_each start (dependent_jobs w0 jid) w0;
  match job_pipeline w1 j with
  | None => Raise AttributeError
  | Some p => Ok (Pipeline_job_finished (Pipeline.id p) w1).2
  end.

(** [Job.start]; [fuel] bounds the depth of the cascade through
    [_start_dependent_jobs] (and of nested [val] reads). *)
Fixpoint Job_start (fuel : nat) (jid : Z) (w : World) : result (bool * World) :=
  match fuel with
  | O => OutOfFuel
  | S fuel' =>
      j ← lookup_job w jid;
      if negb (bool_decide (Job.status j = Waiting)) then Ok (false, w)
      else
        gate ← check_start_conditions w (job_start_conditions w jid);
        match gate with
        | Blocked => Ok (false, w)
        | HardFail =>
            w2 ← start_dependent_jobs_with (Job_start fuel') jid
                   (update_job jid (Job.set_status Failed) w);
            Ok (false, w2)
        | Proceed =>
            w1 ← Job_run fuel' jid w;
            Ok (true, w1)
        end
  end.

Definition Job__start_dependent_jobs (fuel : nat) (jid : Z) (w : World)
    : result World :=
  start_dependent_jobs_with (Job_start fuel) jid w.

Definition add_succeeded (j : Job.t) : Job.t :=
  Job.set_counts (Job.enqueued_workers_count j)
    (Job.succeeded_workers_count j + 1) (Job.failed_workers_count j) j.

Definition add_failed (j : Job.t) : Job.t :=
  Job.set_counts (Job.enqueued_workers_count j)
    (Job.succeeded_workers_count j) (Job.failed_workers_count j + 1) j.

Definition Job_worker_succeeded (fuel : nat) (jid : Z) (w : World)
    : result World :=
  j ← lookup_job w jid;
  let j1 := add_succeeded j in
  if Job.finished_workers_count j1 >=? Job.enqueued_workers_count j1 then
    let status :=
      if Job.failed_workers_count j1 <? 1 then Succeeded else Failed in
    Job__start_dependent_jobs fuel jid
      (update_job jid (fun j => Job.set_status status (add_succeeded j)) w)
  else Ok (update_job jid add_succeeded w).

Definition Job_worker_failed (fuel : nat) (jid : Z) (w : World)
    : result World :=
  j ← lookup_job w jid;
  let j1 := add_failed j in
  if Job.finished_workers_count j1 >=? Job.enqueued_workers_count j1 then
    Job__start_dependent_jobs fuel jid
      (update_job jid (fun j => Job.set_status Failed (add_failed j)) w)
  else Ok (update_job jid add_failed w).

(** ** Pipeline state machine *)

(** [for job in jobs: if not job.get_ready(): return False]. *)
Fixpoint get_ready_each (fuel : nat) (js : list Z) (w : World)
    : result (bool * World) :=
  match js with
  | [] => Ok (true, w)
  | j :: js' =>
      '(ready, w1) ← Job_get_ready fuel j w;
      if (ready : bool) then get_ready_each fuel js' w1 else Ok (false, w1)
  end.

Definition Pipeline_start (fuel : nat) (pid : Z) (w : World)
    : result (bool * World) :=
  p ← lookup_pipeline w pid;
  if negb (status_in (Pipeline.status p) [Idle; Finished; Failed; Succeeded])
  then Ok (false, w)
  else
    let jobs := pipeline_jobs w pid in
    if (List.length jobs <? 1)%nat then Ok (false, w)
    else if existsb
              (fun j => negb (status_in (Job.status j) [Idle; Succeeded; Failed]))
              jobs
    then Ok (false, w)
    else
      '(ready, w1) ← get_ready_each fuel (map Job.id jobs) w;
      if negb (ready : bool) then Ok (false, w1)
      else
        w2 ← start_each (Job_start fuel) (map Job.id jobs) w1;
        Ok (true, update_pipeline pid Running w2).

(** [for job in self.jobs: job.stop()]. *)
Fixpoint stop_each (js : list Z) (w : World) : result World :=
  match js with
  | [] => Ok w
  | j :: js' =>
      '(_, w1) ← Job_stop j w;
      stop_each js' w1
  end.

Definition Pipeline_stop (pid : Z) (w : World) : result (bool * World) :=
  p ← lookup_pipeline w pid;
  if negb (bool_decide (Pipeline.status p = Running)) then Ok (false, w)
  else
    w1 ← stop_each (map Job.id (pipeline_jobs w pid)) w;
    if existsb (fun j => negb (status_in (Job.status j) [Succeeded; Failed]))
               (pipeline_jobs w1 pid)
    then Ok (true, update_pipeline pid Stopping w1)
    else Ok (true, Pipeline__finish pid w1).

Definition Pipeline_start_single_job (fuel : nat) (pid : Z) (jid : Z)
    (w : World) : result (bool * World) :=
  p ← lookup_pipeline w pid;
  if negb (status_in (Pipeline.status p) [Idle; Finished; Failed; Succeeded])
  then Ok (false, w)
  else
    w1 ← Job_run fuel jid w;
    Ok (true, update_pipeline pid Running w1).
End Model.


(** ** A small runtime

    An instance of [Runtime] for the examples: decimal integers, decimal
    fractions, and expressions that are a name, an integer, or a sum of two
    of these.  It agrees with Python on the inputs the examples use. *)
Module Sample.

Definition is_digit (c : ascii) : bool :=
  let n := nat_of_ascii c in ((48 <=? n) && (n <=? 57))%nat.

Definition digit (c : ascii) : Z := Z.of_nat (nat_of_ascii c) - 48.

(** The value of a run of digits after the accumulator [acc]. *)
Fixpoint digits (acc : Z) (s : string) : option Z :=
  match s with
  | EmptyString => Some acc
  | String c s' => if is_digit c then digits (10 * acc + digit c) s' else None
  end.

Fixpoint lstrip (s : string) : string :=
  match s with
  | String c s' => if is_space c then lstrip s' else s
  | EmptyString => EmptyString
  end.

Definition strip (s : string) : string :=
  String.rev (lstrip (String.rev (lstrip s))).

Definition unsigned (s : string) : option Z :=
  match s with
  | EmptyString => None
  | _ => digits 0 s
  end.

Definition int_of_string (s : string) : option Z :=
  match strip s with
  | String "-" s' => option_map Z.opp (unsigned s')
  | String "+" s' => unsigned s'
  | s' => unsigned s'
  end.

(** A non-negative integer as a float (exact below [2^53]). *)
Fixpoint float_of_positive (p : positive) : float :=
  match p with
  | xH => 1%float
  | xO p' => PrimFloat.mul 2%float (float_of_positive p')
  | xI p' => PrimFloat.add (PrimFloat.mul 2%float (float_of_positive p')) 1%float
  end.

Definition float_of_Z (z : Z) : float :=
  match z with
  | Zpos p => float_of_positive p
  | _ => 0%float
  end.

(** [i.f] as a float: both [i * 10^k + f] and [10^k] are exact for the
    short literals of the examples, so the quotient is correctly rounded. *)
Definition float_of_string (s : string) : option float :=
  let s := strip s in
  match String.index 0 "." s with
  | None => None
  | Some i =>
      let ip := String.substring 0 i s in
      let fp := String.substring (S i) (String.length s - S i) s in
      match unsigned ip, unsigned fp with
      | Some a, Some b =>
          let k := Z.of_nat (String.length fp) in
          Some (PrimFloat.div (float_of_Z (a * 10 ^ k + b)) (float_of_Z (10 ^ k)))
      | _, _ => None
      end
  end.

Definition string_of_Z (z : Z) : string :=
  NilZero.string_of_int (Z.to_int z).

Definition str (v : Value) : string :=
  match v with
  | VBool true => "True"
  | VBool false => "False"
  | VNum (NInt z) => string_of_Z z
  | VStr s => s
  | VOther s => s
  | _ => "?"
  end.

Definition is_name_char (c : ascii) : bool :=
  let n := nat_of_ascii c in
  ((65 <=? n) && (n <=? 90) || (97 <=? n) && (n <=? 122) || (n =? 95))%nat
  || is_digit c.

Definition is_name (s : string) : bool :=
  match s with
  | EmptyString => false
  | String c _ => negb (is_digit c) && forallb is_name_char (list_ascii_of_string s)
  end.

(** A name or an integer literal. *)
Definition atom (names : gmap string Value) (s : string) : Evaluation :=
  let s := strip s in
  match unsigned s with
  | Some z => EvalOk (VNum (NInt z))
  | None =>
      if is_name s then
        match names !! s with
        | Some v => EvalOk v
        | None => EvalErr InvalidExpression
        end
      else EvalErr (OtherError "SyntaxError")
  end.

Definition eval (e : string) (names : gmap string Value) : Evaluation :=
  match String.index 0 "+" e with
  | None => atom names e
  | Some i =>
      match atom names (String.substring 0 i e),
            atom names (String.substring (S i) (String.length e - S i) e) with
      | EvalOk (VNum (NInt x)), EvalOk (VNum (NInt y)) =>
          EvalOk (VNum (NInt (x + y)))
      | EvalErr e, _ => EvalErr e
      | _, EvalErr e => EvalErr e
      | _, _ => EvalErr TypeError
      end
  end.

Definition runtime : Runtime :=
  mkRuntime int_of_string float_of_string str eval.

End Sample.

(** ** Vocabulary of the statements *)

(** The status of the pipeline row [pid], when there is one. *)
Definition pipeline_status (w : World) (pid : Z) : option Status :=
  Pipeline.status <$> find_pipeline w pid.

(** The status of the job row [jid], when there is one. *)
Definition job_status (w : World) (jid : Z) : option Status :=
  Job.status <$> find_job w jid.

(** No edge leads into [j]: the spec's "root job". *)
Definition is_root (w : World) (j : Job.t) : Prop :=
  ∀ sc, In sc (start_conditions w) →
        StartCondition.job_id sc ≠ Some (Job.id j).

(** No edge leads out of [j]: no start condition names it as its
    preceding job. *)
Definition has_no_dependent (w : World) (j : Job.t) : Prop :=
  ∀ sc, In sc (start_conditions w) →
        StartCondition.preceding_job_id sc ≠ Some (Job.id j).

(** No line of [split_lines] holds a newline. *)
Definition no_newline (l : string) : Prop :=
  ∀ c, In c (list_ascii_of_string l) → c ≠ newline.

(** A text the lazy body [.+?] runs through: no newline, no percent. *)
Definition plain (x : string) : bool :=
  forallb (fun c => negb (Ascii.eqb c newline) && negb (Ascii.eqb c "%"))
          (list_ascii_of_string x).

(** The span around a plain text [x], as it is written in a value. *)
Definition span (x : string) : string := "{% " +:+ (x +:+ " %}").

(** The evaluator reads the bare name [y] from the namespace, and raises
    [InvalidExpression] (its [NameNotDefined]) when the name is unbound. *)
Definition reads_name (rt : Runtime) (y : string) : Prop :=
  ∀ names,
    simple_eval rt (" " +:+ (y +:+ " ")) names =
    match names !! y with
    | Some v => EvalOk v
    | None => EvalErr InvalidExpression
    end.

(** What a cascade may do to a job row: nothing, or take a waiting job to
    running or failed. *)
Definition job_advances (j j' : Job.t) : Prop :=
  j' = j ∨
  (Job.status j = Waiting ∧ Job.id j' = Job.id j ∧
   Job.pipeline_id j' = Job.pipeline_id j ∧
   (Job.status j' = Running ∨ Job.status j' = Failed)).

(** What a cascade may do to the store: edges and params stay, job rows
    advance in place, pipeline rows keep their place and id, events are
    added in front. *)
Record advances (w w' : World) : Prop := mkAdvances {
  adv_start_conditions : start_conditions w' = start_conditions w;
  adv_params : params w' = params w;
  adv_jobs : Forall2 job_advances (jobs w) (jobs w');
  adv_pipelines :
    Forall2 (fun p p' => Pipeline.id p' = Pipeline.id p)
            (pipelines w) (pipelines w');
  adv_events : ∃ new, events w' = (new ++ events w)%list;
}.

(** The number of waiting job rows: what bounds the depth of a cascade. *)
Definition nwaiting (w : World) : nat :=
  List.length (List.filter (fun j => bool_decide (Job.status j = Waiting)) (jobs w)).

(** At most one of [pipeline_id] and [job_id] is set on every param (the
    data model's invariant on scopes). *)
Definition well_scoped (w : World) : Prop :=
  ∀ p, In p (params w) → Param.pipeline_id p = None ∨ Param.job_id p = None.

(** [run] resets the counters, sets the job running and enqueues one
    task: the row ends with one enqueued worker. *)
Definition started (j : Job.t) : Job.t :=
  Job.mk (Job.id j) (Job.name j) Running (Job.worker_class j)
         (Job.pipeline_id j) 1 0 0.

(** The stores a cascade with [fuel] left can still run on: nested [val]
    reads go three deep on well-scoped params, and each level of a cascade
    takes a waiting job out of the waiting state. *)
Definition fuelled (fuel : nat) (w : World) : Prop :=
  well_scoped w ∧ (nwaiting w + 4 <= fuel)%nat.

(** A job the pipeline still waits for: its status is none of those
    [Pipeline.job_finished] lets through. *)
Definition non_terminal (j : Job.t) : Prop :=
  ¬ In (Job.status j) [Succeeded; Failed; Idle].

(** Some job of the pipeline is not in a terminal state. *)
Definition in_flight (w : World) (pid : Z) : Prop :=
  ∃ j, In j (pipeline_jobs w pid) ∧ non_terminal j.

(** An idle pipeline: the pipeline and its jobs, which are all the jobs of
    the store, are idle; job ids are primary keys. *)
Definition initial (w : World) (pid : Z) : Prop :=
  pipeline_status w pid = Some Idle ∧
  (∀ j, In j (jobs w) → Job.pipeline_id j = Some pid ∧ Job.status j = Idle) ∧
  NoDup (map Job.id (jobs w)).

(** One call on the pipeline [pid] or on one of its jobs that returns.  A
    [Pipeline.start] counts when it returns true, or returns false with the
    job rows as they were: not when a failing [get_ready] aborts it after
    other jobs were made to wait. *)
Inductive step (rt : Runtime) (pid : Z) : World → World → Prop :=
  | step_start fuel b w w' :
      Pipeline_start rt fuel pid w = Ok (b, w') →
      b = true ∨ jobs w' = jobs w →
      step rt pid w w'
  | step_stop b w w' :
      Pipeline_stop pid w = Ok (b, w') → step rt pid w w'
  | step_start_single_job fuel jid b w w' :
      Pipeline_start_single_job rt fuel pid jid w = Ok (b, w') →
      step rt pid w w'
  | step_job_finished w :
      step rt pid w (Pipeline_job_finished pid w).2
  | step_worker_succeeded fuel jid w w' :
      Job_worker_succeeded rt fuel jid w = Ok w' → step rt pid w w'
  | step_worker_failed fuel jid w w' :
      Job_worker_failed rt fuel jid w = Ok w' → step rt pid w w'.

Inductive reachable (rt : Runtime) (pid : Z) (w0 : World) : World → Prop :=
  | reachable_initial : reachable rt pid w0 w0
  | reachable_step w w' :
      reachable rt pid w0 w → step rt pid w w' → reachable rt pid w0 w'.

(** ** Example stores *)

(** One pipeline; job 1 failed and job 2 succeeded, with the edge
    1 -> 2 ([whatever]) that absorbed the failure. *)
Definition absorbed_failure : World :=
  mkWorld [Pipeline.mk 1 "p" Running]
          [Job.mk 1 "a" Failed "W" (Some 1) 1 0 1;
           Job.mk 2 "b" Succeeded "W" (Some 1) 1 1 0]
          [StartCondition.mk 1 (Some 2) (Some 1) Whatever]
          [] [].

(** The same graph with the outcomes exchanged. *)
Definition late_failure : World :=
  mkWorld [Pipeline.mk 1 "p" Running]
          [Job.mk 1 "a" Succeeded "W" (Some 1) 1 1 0;
           Job.mk 2 "b" Failed "W" (Some 1) 1 0 1]
          [StartCondition.mk 1 (Some 2) (Some 1) Whatever]
          [] [].

(** Global [x] = 7 and [y] = 5, the pipeline's [x] = 8 and [u], params of
    job 10 that read [x], [y] and [z], and a param [z] of job 11. *)
Definition scoped_params : World :=
  mkWorld [Pipeline.mk 1 "p" Idle]
          [Job.mk 10 "j" Idle "W" (Some 1) 0 0 0;
           Job.mk 11 "k" Idle "W" (Some 1) 0 0 0;
           Job.mk 12 "l" Running "W" (Some 1) 1 0 0]
          []
          [Param.mk 1 "x" TNumber None None (Some "7");
           Param.mk 2 "y" TNumber None None (Some "5");
           Param.mk 3 "x" TNumber (Some 1) None (Some "8");
           Param.mk 4 "u" TString (Some 1) None (Some "{% x %}");
           Param.mk 5 "a" TString None (Some 10) (Some "{% x %}");
           Param.mk 6 "c" TString None (Some 10) (Some "{% y %}");
           Param.mk 7 "b" TString None (Some 10) (Some "{% z %}");
           Param.mk 8 "z" TString None (Some 11) (Some "hidden")]
          [].

(** Two global params, the second reading the first. *)
Definition global_params_only : World :=
  mkWorld [] [] []
          [Param.mk 1 "x" TNumber None None (Some "7");
           Param.mk 2 "g" TString None None (Some "{% x %}")]
          [].

(** Params of each type, all global. *)
Definition typed_params : World :=
  mkWorld [] [] []
          [Param.mk 1 "n" TNumber None None (Some "abc");
           Param.mk 2 "f" TNumber None None (Some "3.5");
           Param.mk 3 "s" TString None None (Some "{% 2+2 %}");
           Param.mk 4 "l" TStringList None None
             (Some ("a" +:+ String newline (String newline "b")));
           Param.mk 5 "m" TNumberList None None
             (Some ("1" +:+ String newline (" " +:+ String newline "2")))]
          [].

(** A running job with three enqueued workers, none reported yet. *)
Definition three_workers : World :=
  mkWorld [Pipeline.mk 1 "p" Running]
          [Job.mk 1 "a" Running "W" (Some 1) 3 0 0]
          [] [] [].

(** A finished run: job 1 and its dependent job 2 have succeeded and the
    pipeline has been finalized. *)
Definition finalized_pair : World :=
  mkWorld [Pipeline.mk 1 "p" Succeeded]
          [Job.mk 1 "a" Succeeded "W" (Some 1) 1 1 0;
           Job.mk 2 "b" Succeeded "W" (Some 1) 1 1 0]
          [StartCondition.mk 1 (Some 2) (Some 1) Success]
          [] [].

(** Job 3 waits behind two [success] edges: from job 1, running, and from
    job 2, failed; the edge from job 1 comes first. *)
Definition gate_blocked_first : World :=
  mkWorld [Pipeline.mk 1 "p" Running]
          [Job.mk 1 "q" Running "W" (Some 1) 1 0 0;
           Job.mk 2 "p" Failed "W" (Some 1) 1 0 1;
           Job.mk 3 "j" Waiting "W" (Some 1) 0 0 0]
          [StartCondition.mk 1 (Some 3) (Some 1) Success;
           StartCondition.mk 2 (Some 3) (Some 2) Success]
          [] [].

(** The same jobs and edges, the edge from job 2 first. *)
Definition gate_failed_first : World :=
  mkWorld [Pipeline.mk 1 "p" Running]
          [Job.mk 1 "q" Running "W" (Some 1) 1 0 0;
           Job.mk 2 "p" Failed "W" (Some 1) 1 0 1;
           Job.mk 3 "j" Waiting "W" (Some 1) 0 0 0]
          [StartCondition.mk 2 (Some 3) (Some 2) Success;
           StartCondition.mk 1 (Some 3) (Some 1) Success]
          [] [].

(** Job 3 waits behind a [success] edge from job 1, failed, and a
    [whatever] edge from job 2, running. *)
Definition gate_failed_then_whatever : World :=
  mkWorld [Pipeline.mk 1 "p" Running]
          [Job.mk 1 "q" Failed "W" (Some 1) 1 0 1;
           Job.mk 2 "p" Running "W" (Some 1) 1 0 0;
           Job.mk 3 "j" Waiting "W" (Some 1) 0 0 0]
          [StartCondition.mk 1 (Some 3) (Some 1) Success;
           StartCondition.mk 2 (Some 3) (Some 2) Whatever]
          [] [].

(** Job 3 waits behind one [whatever] edge from job 2, running; job 4
    waits behind no edge. *)
Definition gate_whatever_only : World :=
  mkWorld [Pipeline.mk 1 "p" Running]
          [Job.mk 2 "p" Running "W" (Some 1) 1 0 0;
           Job.mk 3 "j" Waiting "W" (Some 1) 0 0 0;
           Job.mk 4 "k" Waiting "W" (Some 1) 0 0 0]
          [StartCondition.mk 2 (Some 3) (Some 2) Whatever]
          [] [].

(** An idle pipeline of two jobs, the second with a param that reads an
    unbound name. *)
Definition half_ready : World :=
  mkWorld [Pipeline.mk 1 "p" Idle]
          [Job.mk 1 "a" Idle "W" (Some 1) 0 0 0;
           Job.mk 2 "b" Idle "W" (Some 1) 0 0 0]
          []
          [Param.mk 1 "x" TString None (Some 2) (Some "{% nope %}")]
          [].

(** An idle pipeline of two jobs, job 2 behind a [success] edge from
    job 1. *)
Definition idle_pair : World :=
  mkWorld [Pipeline.mk 1 "p" Idle]
          [Job.mk 1 "a" Idle "W" (Some 1) 0 0 0;
           Job.mk 2 "b" Idle "W" (Some 1) 0 0 0]
          [StartCondition.mk 1 (Some 2) (Some 1) Success]
          [] [].

(** ** The pipeline's status against its jobs' *)

(** What every call keeps of a job row, and how its status may move when
    the call is not a successful [Pipeline.start]. *)
Definition keeps (j j' : Job.t) : Prop :=
  Job.id j' = Job.id j ∧ Job.pipeline_id j' = Job.pipeline_id j.

Definition moves (j j' : Job.t) : Prop :=
  keeps j j' ∧
  (Job.status j' = Job.status j ∨
   In (Job.status j') [Running; Stopping; Succeeded; Failed]).

(** What [Job.stop] does to a row. *)
Definition stops (j j' : Job.t) : Prop :=
  j' = j ∨
  (keeps j j' ∧
   ((Job.status j = Waiting ∧ Job.status j' = Failed) ∨
    (Job.status j = Running ∧ Job.status j' = Stopping))).

(** What [Job.get_ready] does to a row. *)
Definition readies (j j' : Job.t) : Prop :=
  j' = j ∨ (keeps j j' ∧ Job.status j' = Waiting).

(** Some job row is not in a terminal state. *)
Definition busy (w : World) : Prop := ∃ j, In j (jobs w) ∧ non_terminal j.

Definition busyb (w : World) : bool :=
  existsb (fun j => negb (status_in (Job.status j) [Succeeded; Failed; Idle]))
          (jobs w).

(** The store holds the pipeline [pid] and the jobs are all its own. *)
Definition owned (pid : Z) (w : World) : Prop :=
  (∃ p, find_pipeline w pid = Some p) ∧
  (∀ j, In j (jobs w) → Job.pipeline_id j = Some pid).

(** What the reachable stores satisfy. *)
Record invariant (pid : Z) (w : World) : Prop := mkInvariant {
  inv_owned : owned pid w;
  inv_nodup : NoDup (map Job.id (jobs w));
  inv_not_finished : ∀ j, In j (jobs w) → Job.status j ≠ Finished;
  inv_status :
    ∃ s, pipeline_status w pid = Some s ∧ (s = Running ∨ s = Stopping ↔ busy w);
  inv_idle_or_waiting :
    (∀ j, In j (jobs w) → Job.status j ≠ Idle) ∨
    (∀ j, In j (jobs w) → Job.status j ≠ Waiting);
}.

(** Along a cascade the pipeline's status is left alone while a job is
    busy, and otherwise left alone or set to succeeded or failed. *)
Definition settles (pid : Z) (w w' : World) : Prop :=
  advances w w' ∧
  (owned pid w →
   (busy w' → pipeline_status w' pid = pipeline_status w pid) ∧
   (¬ busy w' →
    pipeline_status w' pid = pipeline_status w pid ∨
    pipeline_status w' pid = Some Succeeded ∨
    pipeline_status w' pid = Some Failed)).

(** Every job waits or runs: the state between the loops of
    [Pipeline.start]. *)
Definition all_started (w : World) : Prop :=
  ∀ j, In j (jobs w) → Job.status j = Waiting ∨ Job.status j = Running.

(** * Properties *)

(** ** Store updates *)

Lemma fk_is_true (fk : option Z) (k : Z) : fk_is fk k = true ↔ fk = Some k.
Proof.
  destruct fk as [x|]; simpl; [|split; discriminate].
  rewrite Z.eqb_eq. split; [intros ->; reflexivity | congruence].
Qed.

Lemma find_update_row {A : Type} (key : A -> Z) (f : A -> A) (k k' : Z)
    (l : list A) :
  (∀ x, key (f x) = key x) →
  List.find (fun x => key x =? k') (update_row key k f l) =
  (if k' =? k then f <$> List.find (fun x => key x =? k') l
   else List.find (fun x => key x =? k') l).
Proof.
  intros Hkey. induction l as [|x l IH]; simpl.
  - destruct (k' =? k); reflexivity.
  - destruct (key x =? k) eqn:E; simpl.
    + apply Z.eqb_eq in E. rewrite Hkey, E.
      destruct (k =? k') eqn:E'.
      * apply Z.eqb_eq in E'. subst k'. rewrite Z.eqb_refl. reflexivity.
      * rewrite Z.eqb_sym, E'. reflexivity.
    + destruct (key x =? k') eqn:E'.
      * destruct (k' =? k) eqn:E''; [|reflexivity].
        apply Z.eqb_eq in E', E''. apply Z.eqb_neq in E. congruence.
      * exact IH.
Qed.

Lemma find_pipeline_update (pid k : Z) (s : Status) (w : World) :
  find_pipeline (update_pipeline pid s w) k =
  (if k =? pid then set_pipeline_status s <$> find_pipeline w k
   else find_pipeline w k).
Proof.
  unfold find_pipeline, update_pipeline; simpl.
  now apply find_update_row.
Qed.

Lemma find_pipeline_id (w : World) (pid : Z) (p : Pipeline.t) :
  find_pipeline w pid = Some p → Pipeline.id p = pid.
Proof.
  unfold find_pipeline. intros H. apply find_some in H as [_ H].
  now apply Z.eqb_eq.
Qed.

Lemma pipeline_status_update (pid : Z) (s : Status) (w : World) (p : Pipeline.t) :
  find_pipeline w pid = Some p →
  pipeline_status (update_pipeline pid s w) pid = Some s.
Proof.
  intros H. unfold pipeline_status.
  rewrite find_pipeline_update, Z.eqb_refl, H. reflexivity.
Qed.

Lemma find_pipeline_emit (e : Event) (w : World) (k : Z) :
  find_pipeline (emit e w) k = find_pipeline w k.
Proof. reflexivity. Qed.

(** ** Finalization of a pipeline *)

Lemma finish_query_spec (w : World) (pid : Z) (j : Job.t) :
  In j (finish_query w pid) ↔
  In j (jobs w) ∧ Job.pipeline_id j = Some pid ∧ has_no_dependent w j.
Proof.
  unfold finish_query, has_no_dependent. rewrite filter_In, andb_true_iff.
  rewrite fk_is_true, negb_true_iff.
  split; intros (Hin & H); split; auto; destruct H as [Hp Hd]; split; auto.
  - intros sc Hsc Heq.
    assert (existsb (fun sc => fk_is (StartCondition.preceding_job_id sc) (Job.id j))
                    (start_conditions w) = true) as Hex; [|congruence].
    apply existsb_exists. exists sc. split; auto. now apply fk_is_true.
  - destruct (existsb _ _) eqn:Hex; auto.
    apply existsb_exists in Hex as (sc & Hsc & Hfk).
    apply fk_is_true in Hfk. now apply Hd in Hsc.
Qed.

Lemma finish_query_update_inner (w : World) (pid jid : Z) (st : Status) :
  (∃ sc, In sc (start_conditions w) ∧
         StartCondition.preceding_job_id sc = Some jid) →
  finish_query (update_job jid (Job.set_status st) w) pid = finish_query w pid.
Proof.
  intros (sc & Hsc & Hpre). unfold finish_query, update_job; simpl.
  induction (jobs w) as [|j js IH]; simpl; [reflexivity|].
  destruct (Job.id j =? jid) eqn:E; simpl; [|now rewrite IH].
  apply Z.eqb_eq in E.
  assert (existsb (fun sc => fk_is (StartCondition.preceding_job_id sc) (Job.id j))
                  (start_conditions w) = true) as ->.
  { apply existsb_exists. exists sc. split; auto. apply fk_is_true. congruence. }
  rewrite !andb_false_r. reflexivity.
Qed.

(** C1, as the code has it: [Pipeline._finish] sets the status to [failed]
    exactly when some job of the pipeline that no start condition names as
    its preceding job (a job without dependents) has failed, and to
    [succeeded] otherwise; a job that some edge leaves is never consulted,
    whatever its status. *)
Theorem C1_finish_consults_jobs_without_dependents
    (w : World) (pid : Z) (p : Pipeline.t) :
  find_pipeline w pid = Some p →
  (∃ s, pipeline_status (Pipeline__finish pid w) pid = Some s ∧
        (s = Failed ∨ s = Succeeded) ∧
        (s = Failed ↔
         ∃ j, In j (jobs w) ∧ Job.pipeline_id j = Some pid ∧
              has_no_dependent w j ∧ Job.status j = Failed)) ∧
  (∀ jid st,
     (∃ sc, In sc (start_conditions w) ∧
            StartCondition.preceding_job_id sc = Some jid) →
     pipeline_status
       (Pipeline__finish pid (update_job jid (Job.set_status st) w)) pid =
     pipeline_status (Pipeline__finish pid w) pid).
Proof.
  intros Hp. split.
  - unfold Pipeline__finish.
    destruct (existsb _ (finish_query w pid)) eqn:Hex.
    + exists Failed. unfold pipeline_status. rewrite find_pipeline_emit.
      fold (pipeline_status (update_pipeline pid Failed w) pid).
      rewrite (pipeline_status_update _ _ _ _ Hp).
      split; [reflexivity|]. split; [now left|]. split; [intros _|reflexivity].
      apply existsb_exists in Hex as (j & Hj & Hs).
      apply finish_query_spec in Hj as (? & ? & ?).
      apply bool_decide_eq_true in Hs. now exists j.
    + exists Succeeded. unfold pipeline_status. rewrite find_pipeline_emit.
      fold (pipeline_status (update_pipeline pid Succeeded w) pid).
      rewrite (pipeline_status_update _ _ _ _ Hp).
      split; [reflexivity|]. split; [now right|]. split; [discriminate|].
      intros (j & Hin & Hpid & Hnd & Hs). exfalso.
      assert (existsb (fun j => bool_decide (Job.status j = Failed))
                      (finish_query w pid) = true) as Hex'; [|congruence].
      apply existsb_exists. exists j. split.
      * now apply finish_query_spec.
      * now apply bool_decide_eq_true.
  - intros jid st Hedge. unfold Pipeline__finish, pipeline_status.
    rewrite !find_pipeline_emit, finish_query_update_inner by assumption.
    rewrite !find_pipeline_update. reflexivity.
Qed.

Lemma C1_finish_witness :
  pipeline_status (Pipeline__finish 1 late_failure) 1 = Some Failed.
Proof.
  destruct (C1_finish_consults_jobs_without_dependents
              late_failure 1 (Pipeline.mk 1 "p" Running) eq_refl)
    as [(s & Hs & _ & Hiff) _].
  rewrite Hs. f_equal. apply Hiff.
  exists (Job.mk 2 "b" Failed "W" (Some 1) 1 0 1).
  repeat split; simpl; auto.
  intros sc [<-|[]]; simpl. discriminate.
Defined.

(** C1 as stated fails: in [absorbed_failure] the root job 1 has failed,
    yet finalization sets the pipeline to [succeeded]; in [late_failure]
    no root job has failed, yet it sets the pipeline to [failed]. *)
Lemma C1_root_jobs_counterexample :
  ((∃ j, In j (jobs absorbed_failure) ∧ Job.pipeline_id j = Some 1 ∧
         is_root absorbed_failure j ∧ Job.status j = Failed) ∧
   pipeline_status (Pipeline__finish 1 absorbed_failure) 1 = Some Succeeded) ∧
  ((∀ j, In j (jobs late_failure) → Job.pipeline_id j = Some 1 →
         is_root late_failure j → Job.status j ≠ Failed) ∧
   pipeline_status (Pipeline__finish 1 late_failure) 1 = Some Failed).
Proof.
  split; split; try reflexivity.
  - exists (Job.mk 1 "a" Failed "W" (Some 1) 1 0 1).
    repeat split; simpl; auto.
    intros sc [<-|[]]; simpl. discriminate.
  - intros j [<-|[<-|[]]] _ Hroot; simpl; [discriminate|].
    exfalso. apply (Hroot (StartCondition.mk 1 (Some 2) (Some 1) Whatever));
      simpl; auto.
Qed.

(** ** Text helpers *)

Lemma append_cons (c : ascii) (s t : string) :
  String c s +:+ t = String c (s +:+ t).
Proof. reflexivity. Qed.

Lemma append_empty_r (s : string) : s +:+ "" = s.
Proof.
  induction s as [|c s IH]; [reflexivity|]. now rewrite append_cons, IH.
Qed.

Lemma append_assoc (a b c : string) : (a +:+ b) +:+ c = a +:+ (b +:+ c).
Proof.
  induction a as [|x a IH]; [reflexivity|]. now rewrite !append_cons, IH.
Qed.

Lemma length_append (a b : string) :
  String.length (a +:+ b) = (String.length a + String.length b)%nat.
Proof.
  induction a as [|x a IH]; [reflexivity|].
  rewrite append_cons. simpl. now rewrite IH.
Qed.

Lemma prefix_append (a b : string) : String.prefix a (a +:+ b) = true.
Proof.
  induction a as [|x a IH]; [now destruct b|].
  rewrite append_cons. simpl.
  destruct (ascii_dec x x); [exact IH | congruence].
Qed.

Lemma prefix_refl (a : string) : String.prefix a a = true.
Proof. rewrite <- (append_empty_r a) at 2. apply prefix_append. Qed.

Lemma substring_middle (a b c : string) :
  String.substring (String.length a) (String.length b) (a +:+ (b +:+ c)) = b.
Proof.
  induction a as [|x a IH]; [|rewrite append_cons; exact IH].
  change ("" +:+ (b +:+ c)) with (b +:+ c). simpl String.length.
  induction b as [|y b IHb]; [now destruct c|].
  rewrite append_cons. simpl. now rewrite IHb.
Qed.

Lemma split_lines_nonempty (s : string) : split_lines s ≠ [].
Proof.
  destruct s as [|c s]; simpl; [discriminate|].
  destruct (Ascii.eqb c newline); [discriminate|].
  destruct (split_lines s); discriminate.
Qed.

(** Joining the lines of [split_lines] with newlines gives the text back. *)
Lemma split_lines_concat (s : string) :
  String.concat (String newline "") (split_lines s) = s.
Proof.
  induction s as [|c s IH]; [reflexivity|].
  simpl split_lines. destruct (Ascii.eqb c newline) eqn:E.
  - apply Ascii.eqb_eq in E. subst c.
    destruct (split_lines s) as [|l ls] eqn:Hs.
    + now apply split_lines_nonempty in Hs.
    + change (String newline (String.concat (String newline "") (l :: ls))
              = String newline s).
      now rewrite IH.
  - destruct (split_lines s) as [|l ls] eqn:Hs.
    + now apply split_lines_nonempty in Hs.
    + destruct ls as [|l' ls].
      * simpl in *. now rewrite IH.
      * change (String c (String.concat (String newline "") (l :: l' :: ls))
                = String c s).
        now rewrite IH.
Qed.

Lemma split_lines_no_newline (s : string) : Forall no_newline (split_lines s).
Proof.
  induction s as [|c s IH]; simpl.
  - constructor; [intros c []|constructor].
  - destruct (Ascii.eqb c newline) eqn:E.
    + constructor; [intros c' []|exact IH].
    + destruct (split_lines s) as [|l ls]; [constructor; [|constructor]|].
      * intros c' [<-|[]]. now apply Ascii.eqb_neq.
      * inversion IH as [|? ? Hl Hls]; subst. constructor; [|exact Hls].
        intros c' [<-|Hc]; [now apply Ascii.eqb_neq | now apply Hl].
Qed.

Lemma findall_from_skip (n : nat) (s : string) :
  (String.length s <= n)%nat → findall_from n s = [].
Proof.
  revert n. induction s as [|c s IH]; intros n Hn; [reflexivity|].
  simpl in *. destruct n as [|n]; [lia|]. apply IH. lia.
Qed.

Lemma replace_from_skip (n : nat) (old new s : string) :
  (String.length s <= n)%nat → replace_from n old new s = "".
Proof.
  revert n. induction s as [|c s IH]; intros n Hn; [reflexivity|].
  simpl in *. destruct n as [|n]; [lia|]. apply IH. lia.
Qed.

(** Replacing a non-empty text in itself leaves the replacement. *)
Lemma replace_whole (new s : string) : s ≠ "" → replace s new s = new.
Proof.
  destruct s as [|c s]; [congruence|]. intros _.
  unfold replace. cbn [replace_from]. rewrite prefix_refl.
  rewrite replace_from_skip; [apply append_empty_r | simpl; lia].
Qed.

Lemma plain_append (x y : string) :
  plain x = true → plain y = true → plain (x +:+ y) = true.
Proof.
  unfold plain. intros Hx Hy. induction x as [|c x IH]; [exact Hy|].
  rewrite append_cons. simpl in *.
  apply andb_true_iff in Hx as [-> Hx]. now rewrite IH.
Qed.

Lemma lazy_body_plain (x rest : string) :
  plain x = true → lazy_body (x +:+ ("%}" +:+ rest)) = Some x.
Proof.
  unfold plain. induction x as [|c x IH].
  - intros _. change (lazy_body (String "%" ("}" +:+ rest)) = Some "").
    cbn [lazy_body]. now rewrite Ascii.eqb_refl, prefix_append.
  - rewrite append_cons. simpl.
    rewrite andb_true_iff, andb_true_iff, !negb_true_iff.
    intros [[Hn Hp] Hx]. rewrite Hp, Hn. simpl. now rewrite IH.
Qed.

Lemma span_not_empty (x : string) : span x ≠ "".
Proof. discriminate. Qed.

Lemma match_inliner_span (x : string) :
  plain x = true → match_inliner (span x) = Some (span x).
Proof.
  intros Hx. unfold span.
  change ("{% " +:+ (x +:+ " %}"))
    with (String "{" (String "%" (String " " (x +:+ " %}")))).
  cbn [match_inliner].
  replace (x +:+ " %}") with ((x +:+ " ") +:+ ("%}" +:+ ""))
    by (rewrite append_assoc; reflexivity).
  rewrite lazy_body_plain by (apply plain_append; [exact Hx | reflexivity]).
  cbn [Ascii.eqb Bool.eqb andb negb newline option_map].
  rewrite !append_cons, !append_assoc. reflexivity.
Qed.

Lemma findall_from_match (c : ascii) (s m : string) :
  match_inliner (String c s) = Some m →
  findall_from 0 (String c s) = m :: findall_from (String.length m - 1) s.
Proof. intros H. cbn [findall_from]. now rewrite H. Qed.

Lemma findall_span (x : string) : plain x = true → findall (span x) = [span x].
Proof.
  intros Hx. unfold findall.
  pose proof (match_inliner_span x Hx) as Hm. unfold span in *.
  change ("{% " +:+ (x +:+ " %}")) with (String "{" ("% " +:+ (x +:+ " %}"))) in *.
  rewrite (findall_from_match _ _ _ Hm). f_equal.
  apply findall_from_skip. simpl. lia.
Qed.

Lemma inner_text_span (x : string) : inner_text (span x) = " " +:+ (x +:+ " ").
Proof.
  unfold inner_text, span.
  replace (String.length ("{% " +:+ (x +:+ " %}")) - 4)%nat
    with (String.length (" " +:+ (x +:+ " "))).
  - replace ("{% " +:+ (x +:+ " %}"))
      with ("{%" +:+ ((" " +:+ (x +:+ " ")) +:+ "%}")).
    + apply (substring_middle "{%").
    + rewrite !append_assoc. reflexivity.
  - rewrite !append_cons. simpl. rewrite !length_append. simpl. lia.
Qed.

(** ** The namespace of a param *)

Section ResolverFacts.
Context (rt : Runtime).

Lemma in_insert_by_name (p q : Param.t) (l : list Param.t) :
  In q (insert_by_name p l) ↔ q = p ∨ In q l.
Proof.
  induction l as [|x l IH]; simpl; [intuition|].
  destruct (String.ltb (Param.name p) (Param.name x)); simpl; [intuition|].
  rewrite IH. intuition.
Qed.

Lemma in_sort_by_name (q : Param.t) (l : list Param.t) :
  In q (sort_by_name l) ↔ In q l.
Proof.
  unfold sort_by_name.
  enough (∀ acc, In q (fold_left (fun acc p => insert_by_name p acc) l acc)
                 ↔ In q l ∨ In q acc) as H.
  { rewrite H. simpl. intuition. }
  induction l as [|x l IH]; intros acc; simpl; [intuition|].
  rewrite IH, in_insert_by_name. intuition.
Qed.

Lemma in_pipeline_params (w : World) (pid : Z) (q : Param.t) :
  In q (pipeline_params w pid) ↔
  In q (params w) ∧ Param.pipeline_id q = Some pid.
Proof.
  unfold pipeline_params. now rewrite in_sort_by_name, filter_In, fk_is_true.
Qed.

Lemma in_global_params (w : World) (q : Param.t) :
  In q (global_params w) ↔
  In q (params w) ∧ Param.pipeline_id q = None ∧ Param.job_id q = None.
Proof.
  unfold global_params. rewrite filter_In.
  destruct (Param.pipeline_id q), (Param.job_id q); intuition congruence.
Qed.

Lemma constants_lookup (x : string) :
  x ≠ "True" → x ≠ "False" → constants !! x = None.
Proof.
  intros H1 H2. unfold constants.
  rewrite !lookup_insert_ne by congruence. apply lookup_empty.
Qed.

(** After [for param in ps: names[param.name] = param.val] a name is bound
    to the value of a param of [ps] with that name, or, when [ps] has none,
    to what it was bound to before. *)
Lemma assign_names_lookup (val : Param.t → result Value) (ps : list Param.t)
    (names0 names : gmap string Value) (x : string) :
  assign_names val ps names0 = Ok names →
  (∃ q v, In q ps ∧ Param.name q = x ∧ val q = Ok v ∧ names !! x = Some v) ∨
  ((∀ q, In q ps → Param.name q ≠ x) ∧ names !! x = names0 !! x).
Proof.
  revert names0. induction ps as [|p ps IH]; intros names0 H; simpl in H.
  - right. injection H as <-. split; [intros q []|reflexivity].
  - destruct (val p) as [v| |] eqn:Hv; simpl in H; try discriminate.
    apply IH in H as [(q & v' & Hq & Hn & Hv' & Hl)|[Hno Hl]].
    + left. exists q, v'. simpl. auto.
    + destruct (decide (Param.name p = x)) as [Hpx|Hpx].
      * left. exists p, v. rewrite Hl, <- Hpx, lookup_insert_eq. simpl. auto.
      * right. split.
        -- intros q [<-|Hq]; auto.
        -- now rewrite Hl, lookup_insert_ne.
Qed.

Lemma build_names_global (val : Param.t → result Value) (w : World)
    (self : Param.t) :
  Param.pipeline_id self = None → Param.job_id self = None →
  build_names val w self = Ok constants.
Proof. intros Hp Hj. unfold build_names. now rewrite Hp, Hj. Qed.

Lemma build_names_pipeline (val : Param.t → result Value) (w : World)
    (self : Param.t) (pid : Z) :
  Param.pipeline_id self = Some pid → Param.job_id self = None →
  build_names val w self = assign_names val (global_params w) constants.
Proof.
  intros Hp Hj. unfold build_names. rewrite Hp, Hj. simpl.
  now destruct (assign_names val (global_params w) constants).
Qed.

Lemma build_names_job (val : Param.t → result Value) (w : World)
    (self : Param.t) (jid : Z) (j : Job.t) (p : Pipeline.t) :
  Param.job_id self = Some jid → find_job w jid = Some j →
  job_pipeline w j = Some p →
  build_names val w self =
  (names ← assign_names val (global_params w) constants;
   assign_names val (pipeline_params w (Pipeline.id p)) names).
Proof.
  intros Hj Hf Hp. unfold build_names. rewrite Hj, Hf, Hp. reflexivity.
Qed.

(** A value that is one span around the name [x] expands to the string of
    what the evaluator returns for it. *)
Lemma expand_vars_span (val : Param.t → result Value) (w : World)
    (self : Param.t) (names : gmap string Value) (x : string) :
  plain x = true →
  build_names val w self = Ok names →
  _expand_vars rt val w self (Some (span x)) =
  match simple_eval rt (" " +:+ (x +:+ " ")) names with
  | EvalOk r => Ok (py_str rt r)
  | EvalErr e => Raise e
  end.
Proof.
  intros Hx Hb. unfold _expand_vars. rewrite Hb. simpl.
  rewrite findall_span by assumption. cbn [expand_inliners].
  rewrite inner_text_span. destruct (simple_eval _ _ _); [|reflexivity].
  now rewrite replace_whole by apply span_not_empty.
Qed.

(** A value without a span expands to itself. *)
Lemma expand_vars_no_span (val : Param.t → result Value) (w : World)
    (self : Param.t) (names : gmap string Value) (text : string) :
  findall text = [] →
  build_names val w self = Ok names →
  _expand_vars rt val w self (Some text) = Ok text.
Proof.
  intros Hf Hb. unfold _expand_vars. rewrite Hb. simpl. now rewrite Hf.
Qed.

(** C10: a global param expands its spans over the two constants only, so
    a span that names anything else raises [InvalidExpression] (the
    evaluator's error for an unbound name); a param with a pipeline and no
    job expands over the constants and the global params, each name bound
    to the value of a global param of that name or else to the constant,
    whatever params its own pipeline has. *)
Theorem C10_global_and_pipeline_scope (fuel : nat) (w : World)
    (self : Param.t) :
  (Param.pipeline_id self = None → Param.job_id self = None →
   build_names (Param_val rt fuel w) w self = Ok constants ∧
   ∀ y, plain y = true → reads_name rt y → y ≠ "True" → y ≠ "False" →
        Param.type self ≠ TBoolean → Param.value self = Some (span y) →
        Param_val rt (S fuel) w self = Raise InvalidExpression) ∧
  (∀ pid, Param.pipeline_id self = Some pid → Param.job_id self = None →
   build_names (Param_val rt fuel w) w self =
     assign_names (Param_val rt fuel w) (global_params w) constants ∧
   ∀ names, build_names (Param_val rt fuel w) w self = Ok names →
   ∀ x, (∃ g v, In g (global_params w) ∧ Param.name g = x ∧
                Param_val rt fuel w g = Ok v ∧ names !! x = Some v) ∨
        ((∀ g, In g (global_params w) → Param.name g ≠ x) ∧
         names !! x = constants !! x)).
Proof.
  split.
  - intros Hp Hj. split; [now apply build_names_global|].
    intros y Hy Hr Ht Hf Hty Hv. cbn [Param_val].
    rewrite bool_decide_eq_false_2 by assumption.
    rewrite Hv, (expand_vars_span _ _ _ constants) by
      (auto using build_names_global).
    now rewrite Hr, constants_lookup by assumption.
  - intros pid Hp Hj. split; [now apply (build_names_pipeline _ _ _ pid)|].
    intros names Hb x. rewrite (build_names_pipeline _ _ _ pid) in Hb by assumption.
    now apply assign_names_lookup.
Qed.


End ResolverFacts.

Section ResolverClaims.
Context (rt : Runtime).

Lemma status_in_In (s : Status) (l : list Status) :
  status_in s l = true ↔ In s l.
Proof.
  unfold status_in. rewrite existsb_exists. split.
  - intros (s' & Hin & Hs). apply bool_decide_eq_true in Hs. now subst.
  - intros Hin. exists s. split; [assumption | now apply bool_decide_eq_true].
Qed.

Lemma status_in_not_In (s : Status) (l : list Status) :
  status_in s l = false ↔ ¬ In s l.
Proof.
  rewrite <- status_in_In. destruct (status_in s l); intuition congruence.
Qed.

Lemma Param_val_unfold (fuel : nat) (w : World) (self : Param.t) :
  Param.type self ≠ TBoolean →
  Param_val rt (S fuel) w self =
  (val ← _expand_vars rt (Param_val rt fuel w) w self (Param.value self);
   Ok (coerce rt (Param.type self) val)).
Proof.
  intros H. cbn [Param_val]. now rewrite bool_decide_eq_false_2.
Qed.


(** How the loop of [get_ready] over the params ends. *)
Lemma resolve_all_failed (val : Param.t → result Value)
    (pre post : list Param.t) (p : Param.t) (e : exn) :
  Forall (fun q => ∃ v, val q = Ok v) pre → val p = Raise e →
  resolve_all val (pre ++ p :: post)%list = FailedAt p e.
Proof.
  intros Hpre Hp. induction Hpre as [|q pre [v Hq] _ IH]; simpl.
  - now rewrite Hp.
  - now rewrite Hq.
Qed.

Lemma resolve_all_resolved (val : Param.t → result Value) (ps : list Param.t) :
  Forall (fun q => ∃ v, val q = Ok v) ps → resolve_all val ps = AllResolved.
Proof.
  intros H. induction H as [|q ps [v Hq] _ IH]; simpl; [reflexivity|].
  now rewrite Hq.
Qed.

Lemma find_job_update (jid k : Z) (f : Job.t → Job.t) (w : World) :
  (∀ j, Job.id (f j) = Job.id j) →
  find_job (update_job jid f w) k =
  (if k =? jid then f <$> find_job w k else find_job w k).
Proof. intros Hf. unfold find_job, update_job. simpl. now apply find_update_row. Qed.


End ResolverClaims.

(** *** The claims on the example stores *)

Lemma sample_reads_name (y : string) :
  Sample.unsigned (Sample.strip (" " +:+ (y +:+ " "))) = None →
  Sample.is_name (Sample.strip (" " +:+ (y +:+ " "))) = true →
  Sample.strip (" " +:+ (y +:+ " ")) = y →
  String.index 0 "+" (" " +:+ (y +:+ " ")) = None →
  reads_name Sample.runtime y.
Proof.
  intros Hu Hn Hs Hi names. simpl. unfold Sample.eval. rewrite Hi.
  unfold Sample.atom. now rewrite Hu, Hn, Hs.
Qed.

Lemma C10_scope_witness :
  Param_val Sample.runtime 1 global_params_only
    (Param.mk 2 "g" TString None None (Some "{% x %}"))
  = Raise InvalidExpression ∧
  Param_val Sample.runtime 2 scoped_params
    (Param.mk 4 "u" TString (Some 1) None (Some "{% x %}"))
  = Ok (VStr "7").
Proof.
  split.
  - destruct (C10_global_and_pipeline_scope Sample.runtime 0 global_params_only
                (Param.mk 2 "g" TString None None (Some "{% x %}")))
      as [H _].
    destruct (H eq_refl eq_refl) as [_ H'].
    apply (H' "x"); try reflexivity; try discriminate.
    apply sample_reads_name; reflexivity.
  - destruct (C10_global_and_pipeline_scope Sample.runtime 1 scoped_params
                (Param.mk 4 "u" TString (Some 1) None (Some "{% x %}")))
      as [_ H].
    destruct (H 1 eq_refl eq_refl) as [Heq _].
    rewrite Param_val_unfold by discriminate.
    unfold _expand_vars. rewrite Heq. vm_compute. reflexivity.
Defined.




(** ** What a cascade changes *)

Lemma job_advances_refl (j : Job.t) : job_advances j j.
Proof. now left. Qed.

Lemma job_advances_trans (j1 j2 j3 : Job.t) :
  job_advances j1 j2 → job_advances j2 j3 → job_advances j1 j3.
Proof.
  intros [->|(Hw & Hi & Hp & Hs)] H23; [assumption|].
  destruct H23 as [->|(Hw' & _)].
  - right. auto.
  - destruct Hs; congruence.
Qed.

Lemma Forall2_refl_all {A : Type} (R : A → A → Prop) (l : list A) :
  (∀ x, R x x) → Forall2 R l l.
Proof. intros HR. induction l; constructor; auto. Qed.

Lemma Forall2_trans_all {A : Type} (R : A → A → Prop) (l1 l2 l3 : list A) :
  (∀ x y z, R x y → R y z → R x z) →
  Forall2 R l1 l2 → Forall2 R l2 l3 → Forall2 R l1 l3.
Proof.
  intros HR H12. revert l3. induction H12; intros l3 H23; inversion H23; subst;
    constructor; eauto.
Qed.

Lemma advances_refl (w : World) : advances w w.
Proof.
  constructor; auto.
  - apply Forall2_refl_all, job_advances_refl.
  - now apply Forall2_refl_all.
  - now exists [].
Qed.

Lemma advances_trans (w1 w2 w3 : World) :
  advances w1 w2 → advances w2 w3 → advances w1 w3.
Proof.
  intros [Hs Hp Hj Hpl [n1 He]] [Hs' Hp' Hj' Hpl' [n2 He']]. constructor.
  - congruence.
  - congruence.
  - eapply Forall2_trans_all; eauto using job_advances_trans.
  - eapply Forall2_trans_all; [|eassumption..]. intros; simpl in *; congruence.
  - exists (n2 ++ n1)%list. rewrite He', He. now rewrite <- app_assoc.
Qed.

Lemma advances_emit (e : Event) (w : World) : advances w (emit e w).
Proof.
  constructor; simpl; auto.
  - apply Forall2_refl_all, job_advances_refl.
  - now apply Forall2_refl_all.
  - now exists [e].
Qed.

(** Rewriting the row found under a key relates the tables row by row. *)
Lemma Forall2_update_row {A : Type} (R : A → A → Prop) (key : A → Z) (k : Z)
    (f : A → A) (l : list A) :
  (∀ x, R x x) →
  (∀ x, List.find (fun y => key y =? k) l = Some x → R x (f x)) →
  Forall2 R l (update_row key k f l).
Proof.
  intros HR. induction l as [|x l IH]; intros Hf; simpl; [constructor|].
  simpl in Hf. destruct (key x =? k).
  - constructor; [now apply Hf | now apply Forall2_refl_all].
  - constructor; [apply HR | now apply IH].
Qed.

Lemma advances_update_job (jid : Z) (f : Job.t → Job.t) (w : World) :
  (∀ j, find_job w jid = Some j → job_advances j (f j)) →
  advances w (update_job jid f w).
Proof.
  intros Hf. constructor; simpl; auto.
  - apply Forall2_update_row; [apply job_advances_refl | exact Hf].
  - now apply Forall2_refl_all.
  - now exists [].
Qed.

Lemma advances_update_pipeline (pid : Z) (s : Status) (w : World) :
  advances w (update_pipeline pid s w).
Proof.
  constructor; simpl; auto.
  - apply Forall2_refl_all, job_advances_refl.
  - apply Forall2_update_row; reflexivity.
  - now exists [].
Qed.

Lemma advances_finish (pid : Z) (w : World) : advances w (Pipeline__finish pid w).
Proof.
  unfold Pipeline__finish.
  eapply advances_trans; [apply advances_update_pipeline | apply advances_emit].
Qed.

Lemma advances_job_finished (pid : Z) (w : World) :
  advances w (Pipeline_job_finished pid w).2.
Proof.
  unfold Pipeline_job_finished. destruct (existsb _ _); simpl.
  - apply advances_refl.
  - apply advances_finish.
Qed.

(** Reading a row after a cascade. *)
Lemma find_Forall2 {A : Type} (R : A → A → Prop) (key : A → Z) (k : Z)
    (l l' : list A) :
  Forall2 (fun x x' => key x' = key x ∧ R x x') l l' →
  match List.find (fun x => key x =? k) l with
  | Some x => ∃ x', List.find (fun x => key x =? k) l' = Some x' ∧ R x x'
  | None => List.find (fun x => key x =? k) l' = None
  end.
Proof.
  induction 1 as [|x x' l l' [Hk HR] _ IH]; simpl; [reflexivity|].
  rewrite Hk. destruct (key x =? k); [eauto | exact IH].
Qed.

Lemma job_advances_id (j j' : Job.t) : job_advances j j' → Job.id j' = Job.id j.
Proof. intros [->|(_ & H & _)]; auto. Qed.

Lemma job_advances_pipeline_id (j j' : Job.t) :
  job_advances j j' → Job.pipeline_id j' = Job.pipeline_id j.
Proof. intros [->|(_ & _ & H & _)]; auto. Qed.

Lemma advances_find_job (w w' : World) (k : Z) :
  advances w w' →
  match find_job w k with
  | Some j => ∃ j', find_job w' k = Some j' ∧ job_advances j j'
  | None => find_job w' k = None
  end.
Proof.
  intros H. unfold find_job. apply find_Forall2.
  eapply Forall2_impl; [apply (adv_jobs _ _ H)|].
  intros j j' Hj. split; [now apply job_advances_id | assumption].
Qed.

Lemma advances_find_job_some (w w' : World) (k : Z) (j : Job.t) :
  advances w w' → find_job w k = Some j →
  ∃ j', find_job w' k = Some j' ∧ job_advances j j'.
Proof.
  intros H Hj. pose proof (advances_find_job w w' k H) as H'.
  now rewrite Hj in H'.
Qed.

(** A job that is not waiting is left as it is. *)
Lemma advances_not_waiting (w w' : World) (k : Z) (j : Job.t) :
  advances w w' → find_job w k = Some j → Job.status j ≠ Waiting →
  find_job w' k = Some j.
Proof.
  intros H Hj Hs. destruct (advances_find_job_some _ _ _ _ H Hj) as (j' & Hj' & Ha).
  destruct Ha as [->|(Hw & _)]; [assumption | contradiction].
Qed.

Lemma advances_find_pipeline (w w' : World) (k : Z) :
  advances w w' →
  match find_pipeline w k with
  | Some p => ∃ p', find_pipeline w' k = Some p' ∧ Pipeline.id p' = Pipeline.id p
  | None => find_pipeline w' k = None
  end.
Proof.
  intros H. unfold find_pipeline.
  apply (find_Forall2 (fun p p' => Pipeline.id p' = Pipeline.id p)).
  eapply Forall2_impl; [apply (adv_pipelines _ _ H)|]. simpl. auto.
Qed.

Lemma advances_nwaiting (w w' : World) : advances w w' → (nwaiting w' <= nwaiting w)%nat.
Proof.
  intros H. unfold nwaiting. pose proof (adv_jobs _ _ H) as Hj.
  induction Hj as [|j j' l l' Hjj' _ IH]; simpl; [lia|].
  destruct Hjj' as [->|(Hw & _ & _ & Hs)].
  - destruct (bool_decide _); simpl; lia.
  - rewrite (bool_decide_eq_true_2 _ Hw).
    rewrite bool_decide_eq_false_2 by (destruct Hs; congruence). simpl. lia.
Qed.

(** Taking the waiting job found under [jid] out of the waiting state
    leaves fewer waiting rows. *)
Lemma nwaiting_update_job (jid : Z) (f : Job.t → Job.t) (w : World) (j : Job.t) :
  find_job w jid = Some j → Job.status j = Waiting →
  Job.status (f j) ≠ Waiting →
  S (nwaiting (update_job jid f w)) = nwaiting w.
Proof.
  unfold find_job, nwaiting, update_job. simpl.
  induction (jobs w) as [|x l IH]; simpl; [discriminate|].
  intros Hf Hw Hs. destruct (Job.id x =? jid); simpl.
  - injection Hf as ->. rewrite (bool_decide_eq_true_2 _ Hw).
    now rewrite (bool_decide_eq_false_2 _ Hs).
  - destruct (bool_decide (Job.status x = Waiting)); simpl; rewrite <- IH; auto.
Qed.

Lemma update_row_twice {A : Type} (key : A → Z) (k : Z) (f g : A → A)
    (l : list A) :
  (∀ x, key (f x) = key x) →
  update_row key k g (update_row key k f l) = update_row key k (fun x => g (f x)) l.
Proof.
  intros Hf. induction l as [|x l IH]; simpl; [reflexivity|].
  destruct (key x =? k) eqn:E; simpl.
  - now rewrite Hf, E.
  - now rewrite E, IH.
Qed.

Lemma update_row_ext {A : Type} (key : A → Z) (k : Z) (f g : A → A)
    (l : list A) :
  (∀ x, f x = g x) → update_row key k f l = update_row key k g l.
Proof.
  intros Hfg. induction l as [|x l IH]; simpl; [reflexivity|].
  now rewrite Hfg, IH.
Qed.

Section Cascade.
Context (rt : Runtime).

Lemma Job_run_ok (fuel : nat) (jid : Z) (w w' : World) :
  Job_run rt fuel jid w = Ok w' →
  ∃ j t, find_job w jid = Some j ∧
         w' = update_job jid started (emit (EvTask t) w).
Proof.
  unfold Job_run, lookup_job. destruct (find_job w jid) as [j|] eqn:Hj;
    [|discriminate].
  simpl. destruct (named_vals _ _) as [vs| |]; simpl; try discriminate.
  unfold Job_enqueue, lookup_job.
  rewrite find_job_update, Z.eqb_refl, Hj by reflexivity. simpl.
  destruct (job_pipeline _ _); simpl; [|discriminate].
  intros [= <-]. exists j, (mkTask jid (Job.worker_class j) (py_dict vs)).
  split; [reflexivity|].
  unfold update_job, emit, with_jobs. simpl. f_equal.
  rewrite update_row_twice by reflexivity.
  apply update_row_ext. reflexivity.
Qed.

Lemma advances_run (fuel : nat) (jid : Z) (w w' : World) (j : Job.t) :
  find_job w jid = Some j → Job.status j = Waiting →
  Job_run rt fuel jid w = Ok w' → advances w w'.
Proof.
  intros Hj Hw Hrun. apply Job_run_ok in Hrun as (j0 & t & Hj0 & ->).
  eapply advances_trans; [apply advances_emit|].
  apply advances_update_job. intros j1 Hj1.
  change (find_job (emit (EvTask t) w) jid) with (find_job w jid) in Hj1.
  assert (j1 = j) as -> by congruence.
  right. simpl. auto.
Qed.

(** *** A relation that every step of a cascade keeps *)

Variable P : World → World → Prop.
Hypothesis P_refl : ∀ w, P w w.
Hypothesis P_trans : ∀ w1 w2 w3, P w1 w2 → P w2 w3 → P w1 w3.
Hypothesis P_emit : ∀ e w, P w (emit e w).
Hypothesis P_fail : ∀ w jid j,
  find_job w jid = Some j → Job.status j = Waiting →
  P w (update_job jid (Job.set_status Failed) w).
Hypothesis P_run : ∀ fuel w jid j w',
  find_job w jid = Some j → Job.status j = Waiting →
  Job_run rt fuel jid w = Ok w' → P w w'.
Hypothesis P_finished : ∀ w0 w1 jid j p,
  find_job w0 jid = Some j → P w0 w1 → job_pipeline w1 j = Some p →
  P w1 (Pipeline_job_finished (Pipeline.id p) w1).2.

Lemma start_each_keeps (start : Z → World → result (bool * World))
    (ds : list Z) (w w' : World) :
  (∀ d w b w', start d w = Ok (b, w') → P w w') →
  start_each start ds w = Ok w' → P w w'.
Proof.
  intros Hstart. revert w. induction ds as [|d ds IH]; intros w H; simpl in H.
  - injection H as <-. apply P_refl.
  - destruct (start d w) as [[b w1]| |] eqn:Hd; simpl in H; try discriminate.
    eapply P_trans; [eapply Hstart; eassumption | now apply IH].
Qed.

Lemma start_dependent_jobs_keeps (start : Z → World → result (bool * World))
    (jid : Z) (w w' : World) :
  (∀ d w b w', start d w = Ok (b, w') → P w w') →
  start_dependent_jobs_with start jid w = Ok w' → P w w'.
Proof.
  intros Hstart. unfold start_dependent_jobs_with, lookup_job.
  destruct (find_job _ jid) as [j|] eqn:Hj; simpl; [|discriminate].
  destruct (start_each _ _ _) as [w1| |] eqn:H1; simpl; try discriminate.
  destruct (job_pipeline w1 j) as [p|] eqn:Hp; [|discriminate].
  intros [= <-]. apply start_each_keeps in H1; [|assumption].
  eapply P_trans; [apply P_emit|]. eapply P_trans; [exact H1|].
  eapply P_finished; eassumption.
Qed.

Lemma Job_start_keeps (fuel : nat) (jid : Z) (w : World) (b : bool) (w' : World) :
  Job_start rt fuel jid w = Ok (b, w') → P w w'.
Proof.
  revert jid w b w'. induction fuel as [|fuel IH]; intros jid w b w' H;
    [discriminate|].
  cbn [Job_start] in H. unfold lookup_job in H.
  destruct (find_job w jid) as [j|] eqn:Hj; simpl in H; [|discriminate].
  destruct (bool_decide (Job.status j = Waiting)) eqn:Hw; simpl in H.
  2: { injection H as <- <-. apply P_refl. }
  apply bool_decide_eq_true in Hw.
  destruct (check_start_conditions _ _) as [[| |]| |]; simpl in H;
    try discriminate.
  - destruct (Job_run _ _ _ _) as [w1| |] eqn:Hrun; simpl in H; try discriminate.
    injection H as <- <-. eapply P_run; eassumption.
  - injection H as <- <-. apply P_refl.
  - destruct (start_dependent_jobs_with _ _ _) as [w2| |] eqn:Hc; simpl in H;
      try discriminate.
    injection H as <- <-.
    eapply P_trans; [eapply P_fail; eassumption|].
    eapply start_dependent_jobs_keeps; [|exact Hc]. exact IH.
Qed.

End Cascade.

(** A cascade only advances the store. *)
Lemma Job_start_advances (rt : Runtime) (fuel : nat) (jid : Z) (w : World)
    (b : bool) (w' : World) :
  Job_start rt fuel jid w = Ok (b, w') → advances w w'.
Proof.
  apply (Job_start_keeps rt advances).
  - apply advances_refl.
  - apply advances_trans.
  - apply advances_emit.
  - intros w0 k j Hj Hw. apply advances_update_job.
    intros j0 Hj0. assert (j0 = j) as -> by congruence. right. simpl. auto.
  - intros f w0 k j w1. apply advances_run.
  - intros. apply advances_job_finished.
Qed.

Lemma start_dependent_jobs_advances (rt : Runtime) (fuel : nat) (jid : Z)
    (w w' : World) :
  Job__start_dependent_jobs rt fuel jid w = Ok w' → advances w w'.
Proof.
  apply (start_dependent_jobs_keeps advances).
  - apply advances_refl.
  - apply advances_trans.
  - apply advances_emit.
  - intros. apply advances_job_finished.
  - intros d w0 b w1. apply Job_start_advances.
Qed.

(** ** Enough fuel

    Nested [val] reads go three deep on well-scoped params, and a cascade
    takes one waiting job out of the waiting state at each level. *)

Section Fuel.
Context (rt : Runtime).

Lemma expand_inliners_returns (names : gmap string Value)
    (inliners : list string) (value : string) :
  expand_inliners rt names inliners value ≠ OutOfFuel.
Proof.
  revert value. induction inliners as [|i l IH]; intros value; simpl;
    [discriminate|].
  destruct (simple_eval _ _ _); [apply IH | discriminate].
Qed.

Lemma assign_names_returns (val : Param.t → result Value) (ps : list Param.t)
    (names : gmap string Value) :
  (∀ p, In p ps → val p ≠ OutOfFuel) → assign_names val ps names ≠ OutOfFuel.
Proof.
  revert names. induction ps as [|p ps IH]; intros names H; simpl;
    [discriminate|].
  destruct (val p) eqn:Hp; simpl; try discriminate.
  - apply IH. intros q Hq. apply H. now right.
  - exfalso. apply (H p); [now left | assumption].
Qed.

Lemma Param_val_returns_if (fuel : nat) (w : World) (self : Param.t) :
  build_names (Param_val rt fuel w) w self ≠ OutOfFuel →
  Param_val rt (S fuel) w self ≠ OutOfFuel.
Proof.
  intros Hb. cbn [Param_val]. destruct (bool_decide _); [discriminate|].
  unfold _expand_vars. destruct (build_names _ _ _) as [names| |];
    simpl; try discriminate; [|contradiction].
  destruct (Param.value self) as [v|]; simpl; [|discriminate].
  pose proof (expand_inliners_returns names (findall v) v).
  destruct (expand_inliners _ _ _ _); simpl; congruence.
Qed.

Lemma Param_val_returns_global (fuel : nat) (w : World) (self : Param.t) :
  Param.pipeline_id self = None → Param.job_id self = None →
  Param_val rt (S fuel) w self ≠ OutOfFuel.
Proof.
  intros Hp Hj. apply Param_val_returns_if.
  now rewrite build_names_global.
Qed.

Lemma globals_return (fuel : nat) (w : World) (names : gmap string Value) :
  assign_names (Param_val rt (S fuel) w) (global_params w) names ≠ OutOfFuel.
Proof.
  apply assign_names_returns. intros g Hg.
  apply in_global_params in Hg as (_ & Hp & Hj).
  now apply Param_val_returns_global.
Qed.

Lemma Param_val_returns_pipeline (fuel : nat) (w : World) (self : Param.t) :
  Param.job_id self = None → Param_val rt (S (S fuel)) w self ≠ OutOfFuel.
Proof.
  intros Hj. destruct (Param.pipeline_id self) as [pid|] eqn:Hp.
  - apply Param_val_returns_if. rewrite (build_names_pipeline _ _ _ pid) by assumption.
    apply globals_return.
  - now apply Param_val_returns_global.
Qed.

Lemma Param_val_returns (fuel : nat) (w : World) (self : Param.t) :
  well_scoped w → (3 <= fuel)%nat → Param_val rt fuel w self ≠ OutOfFuel.
Proof.
  intros Hws Hf. destruct fuel as [|[|[|fuel]]]; try lia. clear Hf.
  destruct (Param.job_id self) as [jid|] eqn:Hj;
    [|now apply Param_val_returns_pipeline].
  apply Param_val_returns_if. unfold build_names. rewrite Hj. simpl.
  pose proof (globals_return (S fuel) w constants) as Hg.
  destruct (assign_names _ (global_params w) constants) as [names| |];
    simpl; try discriminate; [|contradiction].
  destruct (find_job w jid); [|discriminate].
  destruct (job_pipeline w _); [|discriminate].
  apply assign_names_returns. intros q Hq.
  apply in_pipeline_params in Hq as [Hq Hqp].
  apply Param_val_returns_pipeline.
  destruct (Hws q Hq); congruence.
Qed.

Lemma check_start_conditions_returns (w : World) (scs : list StartCondition.t) :
  check_start_conditions w scs ≠ OutOfFuel.
Proof.
  induction scs as [|sc scs IH]; simpl; [discriminate|].
  destruct (StartCondition.condition sc); [| | |assumption];
    (destruct (preceding_job w sc); [|discriminate]);
    repeat match goal with
           | |- context [if ?c then _ else _] => destruct c
           end; simpl; (assumption || discriminate).
Qed.

Lemma named_vals_returns (val : Param.t → result Value) (ps : list Param.t) :
  (∀ p, val p ≠ OutOfFuel) → named_vals val ps ≠ OutOfFuel.
Proof.
  intros H. induction ps as [|p ps IH]; simpl; [discriminate|].
  pose proof (H p). destruct (val p); simpl; try congruence.
  destruct (named_vals val ps); simpl; congruence.
Qed.

Lemma well_scoped_same_params (w w' : World) :
  params w' = params w → well_scoped w → well_scoped w'.
Proof. unfold well_scoped. now intros ->. Qed.

Lemma Job_run_returns (fuel : nat) (jid : Z) (w : World) :
  well_scoped w → (3 <= fuel)%nat → Job_run rt fuel jid w ≠ OutOfFuel.
Proof.
  intros Hws Hf. unfold Job_run, lookup_job.
  destruct (find_job w jid) as [j|]; simpl; [|discriminate].
  match goal with |- context [named_vals ?v ?ps] =>
    pose proof (named_vals_returns v ps) as Hn;
    destruct (named_vals v ps) as [vs| |]; simpl; try discriminate
  end.
  - unfold Job_enqueue, lookup_job. destruct (find_job _ jid); simpl;
      [|discriminate].
    destruct (negb _); simpl; [discriminate|].
    destruct (job_pipeline _ _); simpl; discriminate.
  - exfalso. apply Hn; [|reflexivity]. intros p.
    apply Param_val_returns; [|assumption].
    now apply (well_scoped_same_params w).
Qed.

Lemma start_each_returns (I : World → Prop)
    (start : Z → World → result (bool * World)) (ds : list Z) (w : World) :
  (∀ d w, I w → start d w ≠ OutOfFuel) →
  (∀ d w b w', I w → start d w = Ok (b, w') → I w') →
  I w → start_each start ds w ≠ OutOfFuel.
Proof.
  intros Hret Hkeep. revert w. induction ds as [|d ds IH]; intros w Hw; simpl;
    [discriminate|].
  pose proof (Hret d w Hw). pose proof (Hkeep d w).
  destruct (start d w) as [[b w1]| |]; simpl; try congruence. eauto.
Qed.

Lemma start_dependent_jobs_returns (I : World → Prop)
    (start : Z → World → result (bool * World)) (jid : Z) (w : World) :
  (∀ d w, I w → start d w ≠ OutOfFuel) →
  (∀ d w b w', I w → start d w = Ok (b, w') → I w') →
  I (emit (EvCascade jid) w) →
  start_dependent_jobs_with start jid w ≠ OutOfFuel.
Proof.
  intros Hret Hkeep Hw. unfold start_dependent_jobs_with, lookup_job.
  destruct (find_job _ jid) as [j|]; simpl; [|discriminate].
  pose proof (start_each_returns I start
                (dependent_jobs (emit (EvCascade jid) w) jid) _ Hret Hkeep Hw).
  destruct (start_each _ _ _) as [w1| |]; simpl; try congruence.
  destruct (job_pipeline w1 j); discriminate.
Qed.

Lemma fuelled_advances (fuel : nat) (w w' : World) :
  advances w w' → fuelled fuel w → fuelled fuel w'.
Proof.
  intros Ha [Hws Hn]. split.
  - eapply well_scoped_same_params; [apply (adv_params _ _ Ha) | assumption].
  - apply advances_nwaiting in Ha. lia.
Qed.

(** [Job.start] returns or raises once the fuel exceeds the number of
    waiting jobs by four. *)
Lemma Job_start_returns (fuel : nat) (jid : Z) (w : World) :
  fuelled fuel w → Job_start rt fuel jid w ≠ OutOfFuel.
Proof.
  revert jid w. induction fuel as [|fuel IH]; intros jid w [Hws Hn]; [lia|].
  cbn [Job_start]. unfold lookup_job.
  destruct (find_job w jid) as [j|] eqn:Hj; simpl; [|discriminate].
  destruct (bool_decide (Job.status j = Waiting)) eqn:Hw; simpl; [|discriminate].
  apply bool_decide_eq_true in Hw.
  pose proof (check_start_conditions_returns w (job_start_conditions w jid)).
  destruct (check_start_conditions _ _) as [[| |]| |]; simpl;
    try congruence.
  - pose proof (Job_run_returns fuel jid w Hws ltac:(lia)).
    destruct (Job_run _ _ _ _); simpl; congruence.
  - match goal with |- context [start_dependent_jobs_with ?s ?k ?x] =>
      pose proof (start_dependent_jobs_returns (fuelled fuel) s k x) as Hc;
      destruct (start_dependent_jobs_with s k x); simpl; try discriminate
    end.
    exfalso. apply Hc; [exact IH| | |reflexivity].
    + intros d w0 b w1 Hw0 Hd. eapply fuelled_advances; [|exact Hw0].
      eapply Job_start_advances; eassumption.
    + split; [assumption|].
      change (nwaiting (emit (EvCascade jid)
                          (update_job jid (Job.set_status Failed) w)))
        with (nwaiting (update_job jid (Job.set_status Failed) w)).
      pose proof (nwaiting_update_job jid (Job.set_status Failed) w j Hj Hw
                    ltac:(discriminate)).
      lia.
Qed.

Lemma Job__start_dependent_jobs_returns (fuel : nat) (jid : Z) (w : World) :
  fuelled fuel w → Job__start_dependent_jobs rt fuel jid w ≠ OutOfFuel.
Proof.
  intros Hw. apply (start_dependent_jobs_returns (fuelled fuel)).
  - intros d w0. apply Job_start_returns.
  - intros d w0 b w1 Hw0 Hd. eapply fuelled_advances; [|exact Hw0].
    eapply Job_start_advances; eassumption.
  - exact Hw.
Qed.

End Fuel.

(** ** Worker callbacks and the start gate *)

Section JobClaims.
Context (rt : Runtime).

Lemma start_dependent_jobs_events (fuel : nat) (jid : Z) (w w' : World) :
  Job__start_dependent_jobs rt fuel jid w = Ok w' →
  ∃ new, events w' = (new ++ EvCascade jid :: events w)%list.
Proof.
  unfold Job__start_dependent_jobs, start_dependent_jobs_with, lookup_job.
  destruct (find_job _ jid) as [j|]; simpl; [|discriminate].
  destruct (start_each _ _ _) as [w1| |] eqn:H1; simpl; try discriminate.
  destruct (job_pipeline w1 j) as [p|]; [|discriminate].
  intros [= <-].
  apply (start_each_keeps advances advances_refl advances_trans) in H1;
    [|intros d w0 b w2; apply Job_start_advances].
  pose proof (advances_job_finished (Pipeline.id p) w1) as H2.
  destruct (adv_events _ _ (advances_trans _ _ _ H1 H2)) as [new Hnew].
  now exists new.
Qed.

Lemma fuelled_update_job (fuel : nat) (jid : Z) (f : Job.t → Job.t) (w : World) :
  (∀ j, Job.status (f j) ≠ Waiting) →
  fuelled fuel w → fuelled fuel (update_job jid f w).
Proof.
  intros Hf [Hws Hn]. split; [exact Hws|].
  enough (nwaiting (update_job jid f w) <= nwaiting w)%nat by lia.
  unfold nwaiting, update_job. simpl.
  induction (jobs w) as [|x l IH]; simpl; [lia|].
  destruct (Job.id x =? jid); simpl.
  - rewrite (bool_decide_eq_false_2 _ (Hf x)).
    destruct (bool_decide _); simpl; lia.
  - destruct (bool_decide _); simpl; lia.
Qed.

Lemma geb_true (n m : Z) : m <= n → (n >=? m) = true.
Proof. intros H. rewrite Z.geb_leb. now apply Z.leb_le. Qed.

Lemma geb_false (n m : Z) : n < m → (n >=? m) = false.
Proof. intros H. rewrite Z.geb_leb. now apply Z.leb_gt. Qed.

Lemma worker_succeeded_unfold (fuel : nat) (jid : Z) (w : World) (j : Job.t) :
  find_job w jid = Some j →
  Job_worker_succeeded rt fuel jid w =
  if Job.finished_workers_count j + 1 >=? Job.enqueued_workers_count j then
    Job__start_dependent_jobs rt fuel jid
      (update_job jid
         (fun j' => Job.set_status
                      (if Job.failed_workers_count j <? 1 then Succeeded else Failed)
                      (add_succeeded j')) w)
  else Ok (update_job jid add_succeeded w).
Proof.
  intros Hj. unfold Job_worker_succeeded, lookup_job. rewrite Hj. simpl.
  unfold Job.finished_workers_count. simpl.
  replace (Job.succeeded_workers_count j + 1 + Job.failed_workers_count j)
    with (Job.succeeded_workers_count j + Job.failed_workers_count j + 1) by lia.
  reflexivity.
Qed.

Lemma worker_failed_unfold (fuel : nat) (jid : Z) (w : World) (j : Job.t) :
  find_job w jid = Some j →
  Job_worker_failed rt fuel jid w =
  if Job.finished_workers_count j + 1 >=? Job.enqueued_workers_count j then
    Job__start_dependent_jobs rt fuel jid
      (update_job jid (fun j' => Job.set_status Failed (add_failed j')) w)
  else Ok (update_job jid add_failed w).
Proof.
  intros Hj. unfold Job_worker_failed, lookup_job. rewrite Hj. simpl.
  unfold Job.finished_workers_count. simpl.
  replace (Job.succeeded_workers_count j + (Job.failed_workers_count j + 1))
    with (Job.succeeded_workers_count j + Job.failed_workers_count j + 1) by lia.
  reflexivity.
Qed.

(** After the cascade the finalized job still has the status it was
    given. *)
Lemma finalized_status_kept (fuel : nat) (jid : Z) (f : Job.t → Job.t)
    (w w' : World) (j : Job.t) :
  find_job w jid = Some j → (∀ x, Job.id (f x) = Job.id x) →
  Job.status (f j) ≠ Waiting →
  Job__start_dependent_jobs rt fuel jid (update_job jid f w) = Ok w' →
  find_job w' jid = Some (f j).
Proof.
  intros Hj Hid Hs Hc. apply start_dependent_jobs_advances in Hc.
  apply (advances_not_waiting _ _ _ _ Hc); [|assumption].
  now rewrite find_job_update, Z.eqb_refl, Hj.
Qed.

(** C3: on a running job each callback adds one to its counter; while the
    finished count stays below the enqueued count the job stays running;
    the call that reaches it sets the status ([succeeded] only from
    [worker_succeeded] with no failed worker) and then cascades, and the
    status stands after the cascade.  With three enqueued workers, two
    successes and a failure leave the job running, running, then failed. *)
Theorem C3_worker_counters (fuel : nat) (w : World) (jid : Z) (j : Job.t) :
  find_job w jid = Some j → Job.status j = Running →
  0 <= Job.failed_workers_count j →
  (Job.finished_workers_count j + 1 < Job.enqueued_workers_count j →
   Job_worker_succeeded rt fuel jid w = Ok (update_job jid add_succeeded w) ∧
   find_job (update_job jid add_succeeded w) jid
   = Some (Job.mk (Job.id j) (Job.name j) Running (Job.worker_class j)
                  (Job.pipeline_id j) (Job.enqueued_workers_count j)
                  (Job.succeeded_workers_count j + 1)
                  (Job.failed_workers_count j)) ∧
   Job_worker_failed rt fuel jid w = Ok (update_job jid add_failed w) ∧
   find_job (update_job jid add_failed w) jid
   = Some (Job.mk (Job.id j) (Job.name j) Running (Job.worker_class j)
                  (Job.pipeline_id j) (Job.enqueued_workers_count j)
                  (Job.succeeded_workers_count j)
                  (Job.failed_workers_count j + 1))) ∧
  (Job.enqueued_workers_count j <= Job.finished_workers_count j + 1 →
   Job_worker_succeeded rt fuel jid w
   = Job__start_dependent_jobs rt fuel jid
       (update_job jid
          (fun j' => Job.set_status
                       (if Job.failed_workers_count j =? 0
                        then Succeeded else Failed)
                       (add_succeeded j')) w) ∧
   Job_worker_failed rt fuel jid w
   = Job__start_dependent_jobs rt fuel jid
       (update_job jid (fun j' => Job.set_status Failed (add_failed j')) w) ∧
   (∀ w', Job_worker_succeeded rt fuel jid w = Ok w' →
          find_job w' jid
          = Some (Job.mk (Job.id j) (Job.name j)
                         (if Job.failed_workers_count j =? 0
                          then Succeeded else Failed)
                         (Job.worker_class j) (Job.pipeline_id j)
                         (Job.enqueued_workers_count j)
                         (Job.succeeded_workers_count j + 1)
                         (Job.failed_workers_count j))) ∧
   (∀ w', Job_worker_failed rt fuel jid w = Ok w' →
          find_job w' jid
          = Some (Job.mk (Job.id j) (Job.name j) Failed
                         (Job.worker_class j) (Job.pipeline_id j)
                         (Job.enqueued_workers_count j)
                         (Job.succeeded_workers_count j)
                         (Job.failed_workers_count j + 1))) ∧
   (fuelled fuel w →
    Job_worker_succeeded rt fuel jid w ≠ OutOfFuel ∧
    Job_worker_failed rt fuel jid w ≠ OutOfFuel)) ∧
  (Job.enqueued_workers_count j = 3 → Job.succeeded_workers_count j = 0 →
   Job.failed_workers_count j = 0 →
   let w1 := update_job jid add_succeeded w in
   let w2 := update_job jid add_succeeded w1 in
   Job_worker_succeeded rt fuel jid w = Ok w1 ∧
   job_status w1 jid = Some Running ∧
   Job_worker_succeeded rt fuel jid w1 = Ok w2 ∧
   job_status w2 jid = Some Running ∧
   (∀ w3, Job_worker_failed rt fuel jid w2 = Ok w3 →
          job_status w3 jid = Some Failed) ∧
   (fuelled fuel w → Job_worker_failed rt fuel jid w2 ≠ OutOfFuel)).
Proof.
  intros Hj Hrun Hf.
  assert (∀ f, (∀ x, Job.id (f x) = Job.id x) →
               find_job (update_job jid f w) jid = Some (f j)) as Hupd.
  { intros f Hid. now rewrite find_job_update, Z.eqb_refl, Hj. }
  split; [|split].
  - intros Hlt.
    rewrite (worker_succeeded_unfold _ _ _ _ Hj), (worker_failed_unfold _ _ _ _ Hj).
    rewrite !geb_false by lia.
    rewrite !Hupd by reflexivity.
    unfold add_succeeded, add_failed, Job.set_counts. now rewrite Hrun.
  - intros Hge.
    rewrite (worker_succeeded_unfold _ _ _ _ Hj), (worker_failed_unfold _ _ _ _ Hj).
    rewrite !geb_true by lia.
    replace (Job.failed_workers_count j <? 1)
      with (Job.failed_workers_count j =? 0)
      by (destruct (Z.eqb_spec (Job.failed_workers_count j) 0);
          [symmetry; apply Z.ltb_lt | symmetry; apply Z.ltb_ge]; lia).
    split; [reflexivity|]. split; [reflexivity|]. split; [|split].
    + intros w' Hc. apply finalized_status_kept with (j := j) in Hc; auto.
      now destruct (_ =? 0).
    + intros w' Hc. now apply finalized_status_kept with (j := j) in Hc.
    + intros Hfu. split.
      * apply Job__start_dependent_jobs_returns, fuelled_update_job;
          [|exact Hfu]. intros x. simpl. now destruct (_ =? 0).
      * apply Job__start_dependent_jobs_returns, fuelled_update_job;
          [|exact Hfu]. intros x. discriminate.
  - intros He Hs Hf0 w1 w2.
    assert (find_job w1 jid = Some (add_succeeded j)) as Hj1
        by (apply Hupd; reflexivity).
    assert (find_job w2 jid = Some (add_succeeded (add_succeeded j))) as Hj2.
    { unfold w2. now rewrite find_job_update, Z.eqb_refl, Hj1. }
    rewrite (worker_succeeded_unfold _ _ _ _ Hj),
      (worker_succeeded_unfold _ _ _ _ Hj1), (worker_failed_unfold _ _ _ _ Hj2).
    unfold Job.finished_workers_count. simpl. rewrite He, Hs, Hf0. simpl.
    unfold job_status. rewrite Hj1, Hj2. simpl. rewrite Hrun.
    repeat split.
    + intros w3 Hc. apply finalized_status_kept with (j := add_succeeded (add_succeeded j)) in Hc;
        [now rewrite Hc | assumption | reflexivity | discriminate].
    + intros Hfu. apply Job__start_dependent_jobs_returns.
      apply fuelled_update_job; [discriminate|].
      destruct Hfu as [Hws Hn]. split; [exact Hws|].
      enough (nwaiting w2 = nwaiting w) by lia.
      unfold w2, w1, nwaiting, update_job. simpl.
      rewrite update_row_twice by reflexivity.
      clear -Hj Hrun. unfold find_job in Hj.
      induction (jobs w) as [|x l IH]; simpl in *; [reflexivity|].
      destruct (Job.id x =? jid); simpl.
      * injection Hj as ->. now rewrite Hrun.
      * destruct (bool_decide _); simpl; now rewrite IH.
Qed.

(** C2, as the code has it: a callback that arrives after the job has
    finalized finds the finished count at or above the enqueued count
    again, so it sets the status anew and enters [_start_dependent_jobs]
    once more; nothing in the two callbacks tells a duplicate apart. *)
Theorem C2_duplicate_callback_cascades_again (fuel : nat) (w : World)
    (jid : Z) (j : Job.t) :
  find_job w jid = Some j →
  Job.enqueued_workers_count j <= Job.finished_workers_count j →
  Job.status j = Succeeded ∨ Job.status j = Failed →
  Job_worker_succeeded rt fuel jid w
  = Job__start_dependent_jobs rt fuel jid
      (update_job jid
         (fun j' => Job.set_status
                      (if Job.failed_workers_count j <? 1
                       then Succeeded else Failed)
                      (add_succeeded j')) w) ∧
  Job_worker_failed rt fuel jid w
  = Job__start_dependent_jobs rt fuel jid
      (update_job jid (fun j' => Job.set_status Failed (add_failed j')) w) ∧
  (∀ w', Job_worker_succeeded rt fuel jid w = Ok w' ∨
         Job_worker_failed rt fuel jid w = Ok w' →
         ∃ new, events w' = (new ++ EvCascade jid :: events w)%list) ∧
  (fuelled fuel w →
   Job_worker_succeeded rt fuel jid w ≠ OutOfFuel ∧
   Job_worker_failed rt fuel jid w ≠ OutOfFuel).
Proof.
  intros Hj Hge _.
  rewrite (worker_succeeded_unfold _ _ _ _ Hj), (worker_failed_unfold _ _ _ _ Hj).
  rewrite !geb_true by lia.
  split; [reflexivity|]. split; [reflexivity|]. split.
  - intros w' [H|H]; apply start_dependent_jobs_events in H; exact H.
  - intros Hfu. split.
    + apply Job__start_dependent_jobs_returns, fuelled_update_job;
        [|exact Hfu]. intros x. simpl. now destruct (_ <? 1).
    + apply Job__start_dependent_jobs_returns, fuelled_update_job;
        [|exact Hfu]. intros x. discriminate.
Qed.

(** Edges that let the job through are passed over. *)
Lemma check_start_conditions_app (w : World) (pre l : list StartCondition.t) :
  check_start_conditions w pre = Ok Proceed →
  check_start_conditions w (pre ++ l)%list = check_start_conditions w l.
Proof.
  induction pre as [|sc pre IH]; simpl; [reflexivity|].
  destruct (StartCondition.condition sc); [| | |exact IH];
    (destruct (preceding_job w sc); [|discriminate]);
    repeat match goal with
           | |- context [if ?c then _ else _] => destruct c
           end; simpl; (exact IH || discriminate).
Qed.

Lemma Job_start_unfold (fuel : nat) (jid : Z) (w : World) (j : Job.t) :
  find_job w jid = Some j → Job.status j = Waiting →
  Job_start rt (S fuel) jid w =
  (gate ← check_start_conditions w (job_start_conditions w jid);
   match gate with
   | Blocked => Ok (false, w)
   | HardFail =>
       w2 ← Job__start_dependent_jobs rt fuel jid
              (update_job jid (Job.set_status Failed) w);
       Ok (false, w2)
   | Proceed => w1 ← Job_run rt fuel jid w; Ok (true, w1)
   end).
Proof.
  intros Hj Hw. cbn [Job_start]. unfold lookup_job. rewrite Hj. simpl.
  now rewrite (bool_decide_eq_true_2 _ Hw).
Qed.

(** C4, as the code has it: the edges of a waiting job are examined in
    order and the first one that does not let it through decides.  For a
    [success] edge that is reached (every edge before it lets the job
    through): a succeeded predecessor passes the decision on to the edges
    after it; a failed one sets the job to failed, enters
    [_start_dependent_jobs] (the dependents' [start], then the pipeline's
    [job_finished]) and returns false; an idle, waiting, running or
    stopping one returns false and changes nothing. *)
Theorem C4_success_edge (fuel : nat) (w : World) (jid : Z) (j : Job.t)
    (pre post : list StartCondition.t) (sc : StartCondition.t) (p : Job.t) :
  find_job w jid = Some j → Job.status j = Waiting →
  job_start_conditions w jid = (pre ++ sc :: post)%list →
  check_start_conditions w pre = Ok Proceed →
  StartCondition.condition sc = Success →
  preceding_job w sc = Some p →
  (Job.status p = Succeeded →
   check_start_conditions w (job_start_conditions w jid)
   = check_start_conditions w post) ∧
  (Job.status p = Failed →
   Job_start rt (S fuel) jid w
   = (w2 ← Job__start_dependent_jobs rt fuel jid
             (update_job jid (Job.set_status Failed) w);
      Ok (false, w2)) ∧
   (∀ b w', Job_start rt (S fuel) jid w = Ok (b, w') →
            b = false ∧ job_status w' jid = Some Failed ∧
            ∃ new, events w' = (new ++ EvCascade jid :: events w)%list) ∧
   (fuelled (S fuel) w → Job_start rt (S fuel) jid w ≠ OutOfFuel)) ∧
  (In (Job.status p) [Idle; Waiting; Running; Stopping] →
   Job_start rt (S fuel) jid w = Ok (false, w)).
Proof.
  intros Hj Hw Hscs Hpre Hc Hp.
  assert (check_start_conditions w (job_start_conditions w jid) =
          if negb (bool_decide (Job.status p = Succeeded)) then
            if bool_decide (Job.status p = Failed) then Ok HardFail else Ok Blocked
          else check_start_conditions w post) as Hgate.
  { rewrite Hscs, check_start_conditions_app by assumption.
    simpl. now rewrite Hc, Hp. }
  split; [|split].
  - intros Hs. rewrite Hgate. now rewrite (bool_decide_eq_true_2 _ Hs).
  - intros Hs.
    assert (Job_start rt (S fuel) jid w
            = (w2 ← Job__start_dependent_jobs rt fuel jid
                      (update_job jid (Job.set_status Failed) w);
               Ok (false, w2))) as Heq.
    { rewrite (Job_start_unfold _ _ _ _ Hj Hw), Hgate.
      rewrite bool_decide_eq_false_2 by congruence.
      now rewrite (bool_decide_eq_true_2 _ Hs). }
    split; [exact Heq|]. split.
    + intros b w'. rewrite Heq.
      destruct (Job__start_dependent_jobs _ _ _ _) as [w2| |] eqn:Hcas; simpl;
        try discriminate.
      intros [= <- <-]. split; [reflexivity|]. split.
      * unfold job_status.
        apply finalized_status_kept with (j := j) in Hcas;
          [now rewrite Hcas | assumption | reflexivity | discriminate].
      * now apply start_dependent_jobs_events in Hcas.
    + intros Hfu. now apply Job_start_returns.
  - intros Hs. rewrite (Job_start_unfold _ _ _ _ Hj Hw), Hgate.
    simpl in Hs.
    rewrite !bool_decide_eq_false_2 by (intuition congruence). reflexivity.
Qed.

(** C9, as the code has it: for a [whatever] edge that is reached (every
    edge before it lets the job through), [start] returns false and
    changes nothing while the predecessor is neither succeeded nor failed;
    once it is, the edge passes the decision on to the edges after it,
    whichever of the two the status is.  The edge on its own blocks
    exactly when the predecessor is neither, and never fails the job.  A
    waiting job without edges goes straight to [run]. *)
Theorem C9_whatever_edge (fuel : nat) (w : World) (jid : Z) (j : Job.t) :
  find_job w jid = Some j → Job.status j = Waiting →
  (∀ pre sc post p,
     job_start_conditions w jid = (pre ++ sc :: post)%list →
     check_start_conditions w pre = Ok Proceed →
     StartCondition.condition sc = Whatever →
     preceding_job w sc = Some p →
     (¬ In (Job.status p) [Succeeded; Failed] →
      Job_start rt (S fuel) jid w = Ok (false, w)) ∧
     (In (Job.status p) [Succeeded; Failed] →
      check_start_conditions w (job_start_conditions w jid)
      = check_start_conditions w post) ∧
     (check_start_conditions w [sc] = Ok Blocked ↔
      ¬ In (Job.status p) [Succeeded; Failed]) ∧
     check_start_conditions w [sc] ≠ Ok HardFail) ∧
  (job_start_conditions w jid = [] →
   Job_start rt (S fuel) jid w = (w1 ← Job_run rt fuel jid w; Ok (true, w1))).
Proof.
  intros Hj Hw. split.
  - intros pre sc post p Hscs Hpre Hc Hp.
    assert (∀ l, check_start_conditions w (sc :: l) =
                 if negb (status_in (Job.status p) [Succeeded; Failed])
                 then Ok Blocked else check_start_conditions w l) as Hsc.
    { intros l. simpl. now rewrite Hc, Hp. }
    assert (check_start_conditions w (job_start_conditions w jid) =
            if negb (status_in (Job.status p) [Succeeded; Failed])
            then Ok Blocked else check_start_conditions w post) as Hgate.
    { rewrite Hscs, check_start_conditions_app by assumption. apply Hsc. }
    split; [|split; [|split]].
    + intros Hs. apply status_in_not_In in Hs.
      rewrite (Job_start_unfold _ _ _ _ Hj Hw), Hgate, Hs. reflexivity.
    + intros Hs. apply status_in_In in Hs. now rewrite Hgate, Hs.
    + rewrite Hsc, <- status_in_not_In.
      destruct (status_in _ _); simpl; intuition congruence.
    + rewrite Hsc. destruct (status_in _ _); simpl; discriminate.
  - intros Hnone. rewrite (Job_start_unfold _ _ _ _ Hj Hw), Hnone. reflexivity.
Qed.

End JobClaims.

(** *** The claims on the example stores *)

Lemma C3_worker_counters_witness :
  let w2 := update_job 1 add_succeeded (update_job 1 add_succeeded three_workers) in
  job_status w2 1 = Some Running ∧
  ∃ w3, Job_worker_failed Sample.runtime 8 1 w2 = Ok w3 ∧
        job_status w3 1 = Some Failed.
Proof.
  intros w2.
  destruct (C3_worker_counters Sample.runtime 8 three_workers 1
              (Job.mk 1 "a" Running "W" (Some 1) 3 0 0)
              eq_refl eq_refl ltac:(simpl; lia))
    as (_ & _ & H).
  destruct (H eq_refl eq_refl eq_refl) as (_ & _ & _ & H2 & H3 & _).
  split; [exact H2|].
  eexists. split; [vm_compute; reflexivity|].
  apply H3. vm_compute. reflexivity.
Defined.

Lemma C2_duplicate_callback_witness :
  ∃ w', Job_worker_succeeded Sample.runtime 8 1 finalized_pair = Ok w' ∧
        ∃ new, events w' = (new ++ EvCascade 1 :: events finalized_pair)%list.
Proof.
  destruct (C2_duplicate_callback_cascades_again Sample.runtime 8 finalized_pair 1
              (Job.mk 1 "a" Succeeded "W" (Some 1) 1 1 0)
              eq_refl ltac:(vm_compute; discriminate) (or_introl eq_refl))
    as (_ & _ & H & _).
  eexists. split; [vm_compute; reflexivity|].
  apply H. left. vm_compute. reflexivity.
Defined.

(** C2 as stated fails: on [finalized_pair] one more [worker_succeeded] for
    job 1 enters [_start_dependent_jobs] again and finalizes the pipeline
    a second time (a second mail), and one more [worker_failed] turns the
    succeeded job failed. *)
Lemma C2_no_guard_counterexample :
  (∃ w', Job_worker_succeeded Sample.runtime 8 1 finalized_pair = Ok w' ∧
         events w' = [EvMail 1; EvCascade 1]) ∧
  (∃ w', Job_worker_failed Sample.runtime 8 1 finalized_pair = Ok w' ∧
         events w' = [EvMail 1; EvCascade 1] ∧
         job_status finalized_pair 1 = Some Succeeded ∧
         job_status w' 1 = Some Failed).
Proof.
  split; eexists; (split; [vm_compute; reflexivity|]); repeat split.
Qed.

Lemma C4_success_edge_witness :
  ∃ w', Job_start Sample.runtime 8 3 gate_failed_first = Ok (false, w') ∧
        job_status w' 3 = Some Failed.
Proof.
  destruct (C4_success_edge Sample.runtime 7 gate_failed_first 3
              (Job.mk 3 "j" Waiting "W" (Some 1) 0 0 0)
              []
              [StartCondition.mk 1 (Some 3) (Some 1) Success]
              (StartCondition.mk 2 (Some 3) (Some 2) Success)
              (Job.mk 2 "p" Failed "W" (Some 1) 1 0 1)
              eq_refl eq_refl eq_refl eq_refl eq_refl eq_refl)
    as (_ & H & _).
  destruct (H eq_refl) as (_ & H' & _).
  eexists. split; [vm_compute; reflexivity|].
  eapply H'. vm_compute. reflexivity.
Defined.

(** C4 as stated fails when the job has another edge.  In
    [gate_blocked_first] job 3 has a [success] edge from the failed job 2,
    yet [start] leaves it waiting, the edge from the running job 1 being
    examined first; in [gate_failed_first], where the edges come in the
    other order, job 3 has a [success] edge from the running job 1, yet
    [start] sets it to failed. *)
Lemma C4_first_edge_decides_counterexample :
  Job_start Sample.runtime 8 3 gate_blocked_first = Ok (false, gate_blocked_first) ∧
  job_status gate_blocked_first 3 = Some Waiting ∧
  ∃ w', Job_start Sample.runtime 8 3 gate_failed_first = Ok (false, w') ∧
        job_status w' 3 = Some Failed.
Proof.
  split; [vm_compute; reflexivity|]. split; [reflexivity|].
  eexists. split; vm_compute; reflexivity.
Qed.

Lemma C9_whatever_edge_witness :
  Job_start Sample.runtime 8 3 gate_whatever_only = Ok (false, gate_whatever_only) ∧
  Job_start Sample.runtime 8 4 gate_whatever_only
  = (w1 ← Job_run Sample.runtime 7 4 gate_whatever_only; Ok (true, w1)).
Proof.
  split.
  - destruct (C9_whatever_edge Sample.runtime 7 gate_whatever_only 3
                (Job.mk 3 "j" Waiting "W" (Some 1) 0 0 0) eq_refl eq_refl)
      as [H _].
    destruct (H [] (StartCondition.mk 2 (Some 3) (Some 2) Whatever) []
                (Job.mk 2 "p" Running "W" (Some 1) 1 0 0)
                eq_refl eq_refl eq_refl eq_refl) as [H' _].
    apply H'. simpl. intuition discriminate.
  - destruct (C9_whatever_edge Sample.runtime 7 gate_whatever_only 4
                (Job.mk 4 "k" Waiting "W" (Some 1) 0 0 0) eq_refl eq_refl)
      as [_ H].
    apply H. reflexivity.
Defined.

(** C9 as stated fails when the job has another edge: in
    [gate_failed_then_whatever] the predecessor of the [whatever] edge is
    running, yet [start] does not leave job 3 as it is; the [success] edge
    examined first sets it to failed. *)
Lemma C9_first_edge_decides_counterexample :
  job_status gate_failed_then_whatever 2 = Some Running ∧
  job_status gate_failed_then_whatever 3 = Some Waiting ∧
  ∃ w', Job_start Sample.runtime 8 3 gate_failed_then_whatever = Ok (false, w') ∧
        job_status w' 3 = Some Failed.
Proof.
  split; [reflexivity|]. split; [reflexivity|].
  eexists. split; vm_compute; reflexivity.
Qed.

(** ** The pipeline's status against its jobs' *)

Lemma moves_refl (j : Job.t) : moves j j.
Proof. repeat split; auto. Qed.

Lemma moves_trans (j1 j2 j3 : Job.t) : moves j1 j2 → moves j2 j3 → moves j1 j3.
Proof.
  intros [[Hi Hp] Hs] [[Hi' Hp'] Hs']. repeat split; try congruence.
  destruct Hs'; [|now right]. destruct Hs; [left; congruence|right; congruence].
Qed.

Lemma job_advances_moves (j j' : Job.t) : job_advances j j' → moves j j'.
Proof.
  intros [->|(Hw & Hi & Hp & Hs)]; [apply moves_refl|].
  repeat split; auto. right. simpl. intuition.
Qed.

Lemma Forall2_moves_update_job (jid : Z) (f : Job.t → Job.t) (w : World) :
  (∀ j, find_job w jid = Some j → moves j (f j)) →
  Forall2 moves (jobs w) (jobs (update_job jid f w)).
Proof.
  intros Hf. simpl. apply Forall2_update_row; [apply moves_refl | exact Hf].
Qed.

Lemma Forall2_In_r {A B : Type} (R : A → B → Prop) (l : list A) (l' : list B)
    (y : B) :
  Forall2 R l l' → In y l' → ∃ x, In x l ∧ R x y.
Proof.
  induction 1 as [|a b l l' Hab _ IH]; intros Hin; [contradiction|].
  destruct Hin as [<-|Hin]; [exists a; simpl; auto|].
  destruct (IH Hin) as (x & Hx & HR). exists x. simpl. auto.
Qed.

Lemma Forall2_In_l {A B : Type} (R : A → B → Prop) (l : list A) (l' : list B)
    (x : A) :
  Forall2 R l l' → In x l → ∃ y, In y l' ∧ R x y.
Proof.
  induction 1 as [|a b l l' Hab _ IH]; intros Hin; [contradiction|].
  destruct Hin as [<-|Hin]; [exists b; simpl; auto|].
  destruct (IH Hin) as (y & Hy & HR). exists y. simpl. auto.
Qed.

Lemma Forall2_keeps_ids (l l' : list Job.t) :
  Forall2 keeps l l' → map Job.id l' = map Job.id l.
Proof.
  induction 1 as [|a b l l' [Hi _] _ IH]; simpl; [reflexivity|]. now rewrite Hi, IH.
Qed.

Section Invariant.
Context (rt : Runtime) (pid : Z).

Lemma busyb_busy (w : World) : busyb w = true ↔ busy w.
Proof.
  unfold busyb, busy, non_terminal. rewrite existsb_exists.
  split; intros (j & Hj & Hs); exists j; split; auto.
  - apply negb_true_iff in Hs. now apply status_in_not_In.
  - apply negb_true_iff. now apply status_in_not_In.
Qed.

Lemma owned_pipeline_jobs (w : World) :
  owned pid w → pipeline_jobs w pid = jobs w.
Proof.
  intros [_ H]. unfold pipeline_jobs.
  induction (jobs w) as [|j l IH]; simpl; [reflexivity|].
  rewrite (proj2 (fk_is_true _ _) (H j (or_introl eq_refl))).
  rewrite IH; [reflexivity|]. intros j' Hj'. apply H. now right.
Qed.

Lemma initial_invariant (w : World) : initial w pid → invariant pid w.
Proof.
  intros (Hs & Hj & Hnd). constructor.
  - split; [|intros j Hin; now apply Hj].
    unfold pipeline_status in Hs. destruct (find_pipeline w pid); [eauto|discriminate].
  - exact Hnd.
  - intros j Hin. destruct (Hj j Hin) as [_ ->]. discriminate.
  - exists Idle. split; [exact Hs|]. split.
    + intros [|]; discriminate.
    + intros (j & Hin & Hnt). destruct (Hj j Hin) as [_ Hi].
      exfalso. apply Hnt. rewrite Hi. simpl. auto.
  - right. intros j Hin. destruct (Hj j Hin) as [_ ->]. discriminate.
Qed.

(** The parts of the invariant that do not mention the pipeline's status
    follow row by row. *)
Lemma owned_keeps (w w' : World) :
  Forall2 keeps (jobs w) (jobs w') →
  (∀ k, find_pipeline w k = None → find_pipeline w' k = None) →
  owned pid w' → owned pid w.
Proof.
  intros Hj Hp [[p Hp'] Hown]. split.
  - destruct (find_pipeline w pid) eqn:E; [eauto|].
    apply Hp in E. congruence.
  - intros j Hin. destruct (Forall2_In_l _ _ _ _ Hj Hin) as (j' & Hin' & _ & Hpid).
    rewrite <- Hpid. now apply Hown.
Qed.

Lemma invariant_rows (w w' : World) :
  Forall2 moves (jobs w) (jobs w') →
  invariant pid w →
  (∀ j, In j (jobs w') → Job.pipeline_id j = Some pid) ∧
  NoDup (map Job.id (jobs w')) ∧
  (∀ j, In j (jobs w') → Job.status j ≠ Finished) ∧
  ((∀ j, In j (jobs w') → Job.status j ≠ Idle) ∨
   (∀ j, In j (jobs w') → Job.status j ≠ Waiting)).
Proof.
  intros Hm [[_ Hown] Hnd Hnf _ Hiw].
  assert (Forall2 keeps (jobs w) (jobs w')) as Hk
      by (eapply Forall2_impl; [exact Hm|]; now intros ? ? [? _]).
  split; [|split; [|split]].
  - intros j' Hin'. destruct (Forall2_In_r _ _ _ _ Hm Hin') as (j & Hin & [[_ Hp] _]).
    rewrite Hp. now apply Hown.
  - now rewrite (Forall2_keeps_ids _ _ Hk).
  - intros j' Hin'. destruct (Forall2_In_r _ _ _ _ Hm Hin') as (j & Hin & [_ Hs]).
    destruct Hs as [->|Hs]; [now apply Hnf|].
    simpl in Hs. intuition congruence.
  - destruct Hiw as [Hi|Hw]; [left|right]; intros j' Hin';
      destruct (Forall2_In_r _ _ _ _ Hm Hin') as (j & Hin & [_ Hs]);
      (destruct Hs as [->|Hs]; [auto|simpl in Hs; intuition congruence]).
Qed.

(** A job that is busy after the rows have moved was busy before, unless
    it was made running or stopping. *)
Lemma busy_advances_back (w w' : World) : advances w w' → busy w' → busy w.
Proof.
  intros Ha (j' & Hin' & Hnt).
  destruct (Forall2_In_r _ _ _ _ (adv_jobs _ _ Ha) Hin') as (j & Hin & Hadv).
  exists j. split; [assumption|].
  destruct Hadv as [->|(Hw & _)]; [assumption|].
  unfold non_terminal. rewrite Hw. simpl. intuition discriminate.
Qed.

End Invariant.
Section Settling.
Context (rt : Runtime) (pid : Z).

Lemma owned_advances (w w' : World) : advances w w' → owned pid w ↔ owned pid w'.
Proof.
  intros Ha.
  assert (∀ k, (∃ p, find_pipeline w k = Some p) ↔ (∃ p, find_pipeline w' k = Some p))
    as Hp.
  { intros k. pose proof (advances_find_pipeline w w' k Ha) as H.
    destruct (find_pipeline w k) as [p|].
    - destruct H as (p' & -> & _). split; eauto.
    - rewrite H. split; intros [? ?]; discriminate. }
  unfold owned. rewrite <- Hp. split; intros [Hpp Hown]; (split; [exact Hpp|]).
  - intros j' Hin'.
    destruct (Forall2_In_r _ _ _ _ (adv_jobs _ _ Ha) Hin') as (j & Hin & Hadv).
    rewrite (job_advances_pipeline_id _ _ Hadv). now apply Hown.
  - intros j Hin.
    destruct (Forall2_In_l _ _ _ _ (adv_jobs _ _ Ha) Hin) as (j' & Hin' & Hadv).
    rewrite <- (job_advances_pipeline_id _ _ Hadv). now apply Hown.
Qed.

Lemma settles_same_pipelines (w w' : World) :
  advances w w' → pipelines w' = pipelines w → settles pid w w'.
Proof.
  intros Ha Hp. split; [exact Ha|]. intros _.
  unfold pipeline_status, find_pipeline. rewrite Hp. auto.
Qed.

Lemma settles_refl (w : World) : settles pid w w.
Proof. apply settles_same_pipelines; [apply advances_refl | reflexivity]. Qed.

Lemma settles_trans (w1 w2 w3 : World) :
  settles pid w1 w2 → settles pid w2 w3 → settles pid w1 w3.
Proof.
  intros [Ha H12] [Ha' H23]. split; [eapply advances_trans; eassumption|].
  intros Hown. destruct (H12 Hown) as [Hb Hnb].
  destruct (H23 (proj1 (owned_advances _ _ Ha) Hown)) as [Hb' Hnb'].
  split.
  - intros Hbusy. rewrite (Hb' Hbusy). apply Hb.
    eapply busy_advances_back; eassumption.
  - intros Hnbusy. destruct (Hnb' Hnbusy) as [->|H]; [|auto].
    destruct (busyb w2) eqn:E.
    + left. apply Hb. now apply busyb_busy.
    + apply Hnb. rewrite <- busyb_busy. congruence.
Qed.

Lemma pipeline_status_finish (w : World) (p : Pipeline.t) :
  find_pipeline w pid = Some p →
  pipeline_status (Pipeline__finish pid w) pid = Some Succeeded ∨
  pipeline_status (Pipeline__finish pid w) pid = Some Failed.
Proof.
  intros Hp. unfold Pipeline__finish, pipeline_status. rewrite find_pipeline_emit.
  destruct (existsb _ _);
    [right|left]; apply (pipeline_status_update _ _ _ _ Hp).
Qed.

(** [job_finished] on a store whose jobs are all the pipeline's. *)
Lemma job_finished_owned (w : World) :
  owned pid w →
  (busy w → (Pipeline_job_finished pid w).2 = w) ∧
  (¬ busy w → (Pipeline_job_finished pid w).2 = Pipeline__finish pid w).
Proof.
  intros Hown. unfold Pipeline_job_finished.
  rewrite (owned_pipeline_jobs pid w Hown). fold (busyb w).
  destruct (busyb w) eqn:E; simpl.
  - split; [reflexivity|]. intros Hnb. exfalso. apply Hnb. now apply busyb_busy.
  - split; [|reflexivity]. intros Hb. apply busyb_busy in Hb. congruence.
Qed.

Lemma settles_job_finished (w : World) :
  settles pid w (Pipeline_job_finished pid w).2.
Proof.
  split; [apply advances_job_finished|]. intros Hown.
  destruct (job_finished_owned w Hown) as [Hb Hnb].
  destruct (busyb w) eqn:E.
  - rewrite Hb by now apply busyb_busy. auto.
  - assert (¬ busy w) as Hn by (rewrite <- busyb_busy; congruence).
    rewrite (Hnb Hn). split.
    + intros Hbusy. exfalso. apply Hn. exact Hbusy.
    + intros _. destruct Hown as [[p Hp] _].
      destruct (pipeline_status_finish w p Hp); auto.
Qed.

Lemma job_pipeline_owned (w0 w1 : World) (jid : Z) (j : Job.t) (p : Pipeline.t) :
  find_job w0 jid = Some j → advances w0 w1 → owned pid w1 →
  job_pipeline w1 j = Some p → Pipeline.id p = pid.
Proof.
  intros Hj Ha Hown Hp. apply (owned_advances _ _ Ha) in Hown.
  apply find_some in Hj as [Hin _]. destruct Hown as [_ Hown].
  unfold job_pipeline in Hp. rewrite (Hown j Hin) in Hp.
  now apply find_pipeline_id in Hp.
Qed.

Lemma Job_start_settles (fuel : nat) (jid : Z) (w : World) (b : bool) (w' : World) :
  Job_start rt fuel jid w = Ok (b, w') → settles pid w w'.
Proof.
  apply (Job_start_keeps rt (settles pid)).
  - apply settles_refl.
  - apply settles_trans.
  - intros e w0. apply settles_same_pipelines; [apply advances_emit|reflexivity].
  - intros w0 k j Hj Hw. apply settles_same_pipelines; [|reflexivity].
    apply advances_update_job. intros j0 Hj0.
    assert (j0 = j) as -> by congruence. right. simpl. auto.
  - intros f w0 k j w1 Hj Hw Hrun. apply settles_same_pipelines.
    + eapply advances_run; eassumption.
    + apply Job_run_ok in Hrun as (? & ? & _ & ->). reflexivity.
  - intros w0 w1 k j p Hj [Ha _] Hp.
    split; [apply advances_job_finished|]. intros Hown.
    rewrite (job_pipeline_owned _ _ _ _ _ Hj Ha Hown Hp).
    now apply settles_job_finished.
Qed.

(** After a whole cascade the pipeline's status is as it was if a job is
    busy, and succeeded or failed if none is. *)
Lemma cascade_settled (fuel : nat) (jid : Z) (w w' : World) :
  owned pid w →
  Job__start_dependent_jobs rt fuel jid w = Ok w' →
  advances w w' ∧
  (busy w' → pipeline_status w' pid = pipeline_status w pid) ∧
  (¬ busy w' →
   pipeline_status w' pid = Some Succeeded ∨
   pipeline_status w' pid = Some Failed).
Proof.
  intros Hown Hc. split; [eapply start_dependent_jobs_advances; eassumption|].
  unfold Job__start_dependent_jobs, start_dependent_jobs_with, lookup_job in Hc.
  destruct (find_job _ jid) as [j|] eqn:Hj; simpl in Hc; [|discriminate].
  destruct (start_each _ _ _) as [w1| |] eqn:H1; simpl in Hc; try discriminate.
  destruct (job_pipeline w1 j) as [p|] eqn:Hp; [|discriminate].
  injection Hc as <-.
  apply (start_each_keeps (settles pid) settles_refl settles_trans) in H1;
    [|intros d w0 b w2; apply Job_start_settles].
  destruct H1 as [Ha H1].
  assert (owned pid (emit (EvCascade jid) w)) as Hown0 by exact Hown.
  assert (owned pid w1) as Hown1 by now apply (owned_advances _ _ Ha).
  rewrite (job_pipeline_owned _ _ _ _ _ Hj Ha Hown1 Hp).
  destruct (H1 Hown0) as [Hb _].
  destruct (job_finished_owned w1 Hown1) as [Hfb Hfn].
  destruct (busyb w1) eqn:E.
  - assert (busy w1) as Hbusy by now apply busyb_busy.
    rewrite (Hfb Hbusy). split; [intros _; now apply Hb|].
    intros Hn. contradiction.
  - assert (¬ busy w1) as Hn by (rewrite <- busyb_busy; congruence).
    rewrite (Hfn Hn). split.
    + intros Hbusy. exfalso. apply Hn. exact Hbusy.
    + intros _. destruct Hown1 as [[p1 Hp1] _].
      apply (pipeline_status_finish w1 p1 Hp1).
Qed.

End Settling.
Section Preservation.
Context (rt : Runtime) (pid : Z).

Lemma invariant_intro (w w' : World) :
  Forall2 moves (jobs w) (jobs w') → invariant pid w →
  (∃ s, pipeline_status w' pid = Some s ∧
        (s = Running ∨ s = Stopping ↔ busy w')) →
  invariant pid w'.
Proof.
  intros Hm Hinv Hs.
  destruct (invariant_rows pid w w' Hm Hinv) as (Hown & Hnd & Hnf & Hiw).
  constructor; auto. split; [|exact Hown].
  destruct Hs as (s & Hs & _). unfold pipeline_status in Hs.
  destruct (find_pipeline w' pid); [eauto|discriminate].
Qed.

(** Rows that keep their status keep the invariant. *)
Lemma invariant_same_status (w w' : World) :
  Forall2 (fun j j' => keeps j j' ∧ Job.status j' = Job.status j)
          (jobs w) (jobs w') →
  pipelines w' = pipelines w → invariant pid w → invariant pid w'.
Proof.
  intros Hj Hp Hinv. apply (invariant_intro w); [|exact Hinv|].
  - eapply Forall2_impl; [exact Hj|]. intros j j' [Hk Hs]. split; auto.
  - destruct (inv_status pid w Hinv) as (s & Hs & Hiff). exists s.
    unfold pipeline_status, find_pipeline in *. rewrite Hp. split; [exact Hs|].
    rewrite Hiff. unfold busy, non_terminal. split; intros (j & Hin & Hnt).
    + destruct (Forall2_In_l _ _ _ _ Hj Hin) as (j' & Hin' & _ & Hst).
      exists j'. now rewrite Hst.
    + destruct (Forall2_In_r _ _ _ _ Hj Hin) as (j0 & Hin0 & _ & Hst).
      exists j0. now rewrite <- Hst.
Qed.

Lemma invariant_same_rows (w w' : World) :
  jobs w' = jobs w → pipelines w' = pipelines w →
  invariant pid w → invariant pid w'.
Proof.
  intros Hj Hp. apply invariant_same_status; [|exact Hp].
  rewrite Hj. apply Forall2_refl_all. repeat split.
Qed.

Lemma invariant_finish (w : World) :
  invariant pid w → ¬ busy w → invariant pid (Pipeline__finish pid w).
Proof.
  intros Hinv Hnb. apply (invariant_intro w); [|exact Hinv|].
  - apply Forall2_refl_all, moves_refl.
  - destruct (inv_owned pid w Hinv) as [[p Hp] _].
    destruct (pipeline_status_finish pid w p Hp) as [H|H];
      rewrite H; eexists; (split; [reflexivity|]);
      (split; [intros [|]; discriminate | intros Hb; contradiction]).
Qed.

Lemma invariant_job_finished (w : World) :
  invariant pid w → invariant pid (Pipeline_job_finished pid w).2.
Proof.
  intros Hinv. destruct (job_finished_owned pid w (inv_owned pid w Hinv)) as [Hb Hn].
  destruct (busyb w) eqn:E.
  - rewrite Hb by now apply busyb_busy. exact Hinv.
  - assert (¬ busy w) as Hnb by (rewrite <- busyb_busy; congruence).
    rewrite (Hn Hnb). now apply invariant_finish.
Qed.

(** A callback that only counts. *)
Lemma invariant_count (w : World) (jid : Z) (f : Job.t → Job.t) :
  (∀ j, keeps j (f j) ∧ Job.status (f j) = Job.status j) →
  invariant pid w → invariant pid (update_job jid f w).
Proof.
  intros Hf. apply invariant_same_status; [|reflexivity].
  simpl. apply Forall2_update_row; [repeat split | intros j _; apply Hf].
Qed.

(** A callback that finalizes the job and cascades. *)
Lemma invariant_finalize (fuel : nat) (w w' : World) (jid : Z)
    (f : Job.t → Job.t) :
  (∀ j, keeps j (f j) ∧ (Job.status (f j) = Succeeded ∨ Job.status (f j) = Failed)) →
  invariant pid w →
  Job__start_dependent_jobs rt fuel jid (update_job jid f w) = Ok w' →
  invariant pid w'.
Proof.
  intros Hf Hinv Hc.
  assert (Forall2 (fun j j' => j' = j ∨ (keeps j j' ∧
                     (Job.status j' = Succeeded ∨ Job.status j' = Failed)))
                  (jobs w) (jobs (update_job jid f w))) as Hrows.
  { simpl. apply Forall2_update_row; [now left | intros j _; right; apply Hf]. }
  assert (Forall2 moves (jobs w) (jobs (update_job jid f w))) as Hm.
  { eapply Forall2_impl; [exact Hrows|]. intros j j' [->|[Hk Hs]];
      [apply moves_refl|]. split; [exact Hk|]. right. simpl. intuition. }
  assert (owned pid (update_job jid f w)) as Hown.
  { split; [exact (proj1 (inv_owned pid w Hinv))|].
    apply (invariant_rows pid w _ Hm Hinv). }
  destruct (cascade_settled rt pid fuel jid _ w' Hown Hc) as (Ha & Hb & Hnb).
  apply (invariant_intro w); [|exact Hinv|].
  - eapply Forall2_trans_all; [apply moves_trans | exact Hm |].
    eapply Forall2_impl; [apply (adv_jobs _ _ Ha)|]. apply job_advances_moves.
  - destruct (busyb w') eqn:E.
    + apply busyb_busy in E. destruct (inv_status pid w Hinv) as (s & Hs & Hiff).
      exists s. split; [rewrite (Hb E); exact Hs|].
      split; [intros _; exact E|]. intros _. apply Hiff.
      apply (busy_advances_back _ _ Ha) in E. destruct E as (j' & Hin' & Hnt).
      destruct (Forall2_In_r _ _ _ _ Hrows Hin') as (j & Hin & [->|[_ Hs']]).
      * now exists j.
      * exfalso. apply Hnt. simpl. destruct Hs' as [->| ->]; auto.
    + assert (¬ busy w') as Hn by (rewrite <- busyb_busy; congruence).
      destruct (Hnb Hn) as [H|H]; rewrite H; eexists; (split; [reflexivity|]);
        (split; [intros [|]; discriminate | intros Hbusy; contradiction]).
Qed.

Lemma invariant_worker_succeeded (fuel : nat) (jid : Z) (w w' : World) :
  invariant pid w → Job_worker_succeeded rt fuel jid w = Ok w' →
  invariant pid w'.
Proof.
  intros Hinv H. destruct (find_job w jid) as [j|] eqn:Hj.
  2: { unfold Job_worker_succeeded, lookup_job in H. rewrite Hj in H. discriminate. }
  rewrite (worker_succeeded_unfold _ _ _ _ _ Hj) in H.
  destruct (_ >=? _).
  - eapply invariant_finalize; [|exact Hinv|exact H].
    intros x. repeat split. simpl. destruct (_ <? 1); auto.
  - injection H as <-. apply invariant_count; [|exact Hinv]. repeat split.
Qed.

Lemma invariant_worker_failed (fuel : nat) (jid : Z) (w w' : World) :
  invariant pid w → Job_worker_failed rt fuel jid w = Ok w' →
  invariant pid w'.
Proof.
  intros Hinv H. destruct (find_job w jid) as [j|] eqn:Hj.
  2: { unfold Job_worker_failed, lookup_job in H. rewrite Hj in H. discriminate. }
  rewrite (worker_failed_unfold _ _ _ _ _ Hj) in H.
  destruct (_ >=? _).
  - eapply invariant_finalize; [|exact Hinv|exact H].
    intros x. repeat split. simpl. auto.
  - injection H as <-. apply invariant_count; [|exact Hinv]. repeat split.
Qed.

End Preservation.
Section PreservationStop.
Context (rt : Runtime) (pid : Z).

Lemma stops_trans (j1 j2 j3 : Job.t) : stops j1 j2 → stops j2 j3 → stops j1 j3.
Proof.
  intros [->|H12] H23; [assumption|]. destruct H23 as [->|H23]; [now right|].
  exfalso. destruct H12 as (_ & [[_ H]|[_ H]]), H23 as (_ & [[H' _]|[H' _]]);
    congruence.
Qed.

Lemma stops_moves (j j' : Job.t) : stops j j' → moves j j'.
Proof.
  intros [->|(Hk & Hs)]; [apply moves_refl|]. split; [exact Hk|].
  right. simpl. destruct Hs as [[_ ->]|[_ ->]]; auto.
Qed.

Lemma Job_stop_stops (jid : Z) (w : World) (b : bool) (w' : World) :
  Job_stop jid w = Ok (b, w') →
  Forall2 stops (jobs w) (jobs w') ∧ pipelines w' = pipelines w.
Proof.
  unfold Job_stop, lookup_job.
  destruct (find_job w jid) as [j|] eqn:Hj; simpl; [|discriminate].
  destruct (bool_decide (Job.status j = Waiting)) eqn:Hw;
    [|destruct (bool_decide (Job.status j = Running)) eqn:Hr];
    intros [= <- <-]; (split; [|reflexivity]).
  - apply bool_decide_eq_true in Hw. simpl.
    apply Forall2_update_row; [now left|]. intros x Hx.
    assert (x = j) as -> by (unfold find_job in Hj; congruence).
    right. repeat split; auto.
  - apply bool_decide_eq_true in Hr. simpl.
    apply Forall2_update_row; [now left|]. intros x Hx.
    assert (x = j) as -> by (unfold find_job in Hj; congruence).
    right. repeat split; auto.
  - apply Forall2_refl_all. now left.
Qed.

Lemma stop_each_stops (ids : list Z) (w w' : World) :
  stop_each ids w = Ok w' →
  Forall2 stops (jobs w) (jobs w') ∧ pipelines w' = pipelines w.
Proof.
  revert w. induction ids as [|k ids IH]; intros w H; simpl in H.
  - injection H as <-. split; [|reflexivity]. apply Forall2_refl_all. now left.
  - destruct (Job_stop k w) as [[b w1]| |] eqn:Hk; simpl in H; try discriminate.
    apply Job_stop_stops in Hk as [Hj Hp]. apply IH in H as [Hj' Hp'].
    split; [|congruence].
    eapply Forall2_trans_all; [apply stops_trans|eassumption..].
Qed.

Lemma pipeline_status_same (w w' : World) :
  pipelines w' = pipelines w → pipeline_status w' pid = pipeline_status w pid.
Proof. intros H. unfold pipeline_status, find_pipeline. now rewrite H. Qed.

Lemma invariant_stop (w w' : World) (b : bool) :
  invariant pid w → Pipeline_stop pid w = Ok (b, w') → invariant pid w'.
Proof.
  intros Hinv. unfold Pipeline_stop, lookup_pipeline.
  destruct (find_pipeline w pid) as [p|] eqn:Hp;
    cbv beta iota delta [mbind result_bind]; [|discriminate].
  destruct (bool_decide (Pipeline.status p = Running)) eqn:Hrun;
    cbn [negb].
  2: { intros [= <- <-]. exact Hinv. }
  apply bool_decide_eq_true in Hrun.
  destruct (stop_each _ w) as [w1| |] eqn:Hstop;
    cbv beta iota delta [mbind result_bind]; try discriminate.
  apply stop_each_stops in Hstop as [Hst Hpl].
  assert (Forall2 moves (jobs w) (jobs w1)) as Hm
      by (eapply Forall2_impl; [exact Hst | apply stops_moves]).
  destruct (invariant_rows pid w w1 Hm Hinv) as (Hown1 & _).
  assert (find_pipeline w1 pid = Some p) as Hp1
      by (unfold find_pipeline; now rewrite Hpl).
  assert (owned pid w1) as Hown by (split; eauto).
  rewrite (owned_pipeline_jobs pid w1 Hown).
  destruct (existsb _ (jobs w1)) eqn:Hex; intros [= <- <-].
  - apply (invariant_intro pid w); [exact Hm|exact Hinv|].
    exists Stopping. split; [apply (pipeline_status_update _ _ _ _ Hp1)|].
    split; [intros _|auto].
    change (busy (update_pipeline pid Stopping w1)) with (busy w1).
    apply existsb_exists in Hex as (j1 & Hin1 & Hs1).
    apply negb_true_iff, status_in_not_In in Hs1.
    destruct (inv_status pid w Hinv) as (s & Hs & Hiff).
    assert (s = Running) as -> by (unfold pipeline_status in Hs; rewrite Hp in Hs;
                                   simpl in Hs; congruence).
    destruct (proj1 Hiff (or_introl eq_refl)) as (j0 & Hin0 & Hnt0).
    destruct (Forall2_In_l _ _ _ _ Hst Hin0) as (j0' & Hin0' & Hstops).
    destruct Hstops as [->|(_ & [[Hw Hf]|[_ Hsp]])].
    + now exists j0.
    + exists j1. split; [exact Hin1|]. unfold non_terminal. simpl in *.
      intros [H|[H|[H|[]]]]; try (apply Hs1; auto; fail).
      destruct (inv_idle_or_waiting pid w Hinv) as [Hno|Hno];
        [|now apply (Hno j0 Hin0)].
      destruct (Forall2_In_r _ _ _ _ Hst Hin1) as (j & Hin & Hstops).
      destruct Hstops as [->|(_ & [[_ Hx]|[_ Hx]])]; try congruence.
      now apply (Hno j Hin).
    + exists j0'. split; [exact Hin0'|]. unfold non_terminal. rewrite Hsp.
      simpl. intuition discriminate.
  - assert (¬ busy w1) as Hnb.
    { intros (j & Hin & Hnt). apply Hnt.
      assert (status_in (Job.status j) [Succeeded; Failed] = true) as Hs.
      { destruct (status_in (Job.status j) [Succeeded; Failed]) eqn:E; auto.
        assert (existsb (fun j => negb (status_in (Job.status j) [Succeeded; Failed]))
                        (jobs w1) = true) as Hex'; [|congruence].
        apply existsb_exists. exists j. now rewrite E. }
      apply status_in_In in Hs. simpl in *. intuition. }
    apply (invariant_intro pid w); [exact Hm|exact Hinv|].
    destruct (pipeline_status_finish pid w1 p Hp1) as [H|H];
      rewrite H; eexists; (split; [reflexivity|]);
      (split; [intros [|]; discriminate | intros Hb; contradiction]).
Qed.

Lemma invariant_start_single_job (fuel : nat) (jid : Z) (w w' : World) (b : bool) :
  invariant pid w → Pipeline_start_single_job rt fuel pid jid w = Ok (b, w') →
  invariant pid w'.
Proof.
  intros Hinv. unfold Pipeline_start_single_job, lookup_pipeline.
  destruct (find_pipeline w pid) as [p|] eqn:Hp; simpl; [|discriminate].
  destruct (negb _); simpl; [intros [= <- <-]; exact Hinv|].
  destruct (Job_run rt fuel jid w) as [w1| |] eqn:Hrun; simpl; try discriminate.
  intros [= <- <-]. apply Job_run_ok in Hrun as (j & t & Hj & ->).
  apply (invariant_intro pid w); [|exact Hinv|].
  - simpl. apply Forall2_update_row; [apply moves_refl|]. intros x _.
    repeat split. right. simpl. auto.
  - exists Running. split.
    + apply (pipeline_status_update _ _ _ p). exact Hp.
    + split; [intros _|auto]. exists (started j). split.
      * assert (find_job (update_job jid started (emit (EvTask t) w)) jid
                = Some (started j)) as Hf.
        { rewrite find_job_update by reflexivity. rewrite Z.eqb_refl.
          change (find_job (emit (EvTask t) w) jid) with (find_job w jid).
          now rewrite Hj. }
        now apply find_some in Hf as [Hin _].
      * unfold non_terminal. simpl. intuition discriminate.
Qed.

End PreservationStop.
Section PreservationStart.
Context (rt : Runtime) (pid : Z).

Lemma readies_trans (j1 j2 j3 : Job.t) :
  readies j1 j2 → readies j2 j3 → readies j1 j3.
Proof.
  intros [->|[[Hi Hp] Hs]] [->|[[Hi' Hp'] Hs']]; unfold readies, keeps; auto.
  right. repeat split; congruence.
Qed.

Lemma Job_get_ready_readies (fuel : nat) (jid : Z) (w : World) (b : bool)
    (w' : World) :
  Job_get_ready rt fuel jid w = Ok (b, w') →
  Forall2 readies (jobs w) (jobs w') ∧ pipelines w' = pipelines w ∧
  start_conditions w' = start_conditions w ∧
  (b = true → job_status w' jid = Some Waiting).
Proof.
  unfold Job_get_ready, lookup_job.
  destruct (find_job w jid) as [j|] eqn:Hj; cbn [mbind result_bind];
    [|discriminate].
  destruct (negb _).
  { intros [= <- <-]. repeat split; [|discriminate].
    apply Forall2_refl_all. now left. }
  destruct (resolve_all _ _) as [|p e|]; try discriminate.
  - intros [= <- <-]. repeat split.
    + simpl. apply Forall2_update_row; [now left|]. intros x _. right.
      repeat split.
    + intros _. unfold job_status.
      now rewrite find_job_update, Z.eqb_refl, Hj.
  - destruct (caught e); [|discriminate]. intros [= <- <-].
    repeat split; [|discriminate]. apply Forall2_refl_all. now left.
Qed.

Lemma readies_find_waiting (w w' : World) (k : Z) :
  Forall2 readies (jobs w) (jobs w') →
  job_status w k = Some Waiting → job_status w' k = Some Waiting.
Proof.
  intros Hr. unfold job_status, find_job.
  pose proof (find_Forall2 readies Job.id k (jobs w) (jobs w')) as H.
  destruct (List.find _ (jobs w)) as [j|]; [|discriminate].
  destruct H as (j' & -> & Hjj').
  { eapply Forall2_impl; [exact Hr|]. intros x y Hxy. split; [|exact Hxy].
    destruct Hxy as [->|[[Hi _] _]]; auto. }
  simpl. intros [= Hs]. destruct Hjj' as [->|[_ ->]]; [now rewrite Hs|reflexivity].
Qed.

Lemma get_ready_each_readies (fuel : nat) (ids : list Z) (w : World) (b : bool)
    (w' : World) :
  get_ready_each rt fuel ids w = Ok (b, w') →
  Forall2 readies (jobs w) (jobs w') ∧ pipelines w' = pipelines w ∧
  start_conditions w' = start_conditions w ∧
  (b = true → ∀ k, In k ids → job_status w' k = Some Waiting).
Proof.
  revert w. induction ids as [|k ids IH]; intros w H; cbn [get_ready_each] in H.
  - injection H as <- <-. repeat split; [|intros _ k []].
    apply Forall2_refl_all. now left.
  - destruct (Job_get_ready rt fuel k w) as [[r w1]| |] eqn:Hk;
      cbn [mbind result_bind] in H; try discriminate.
    apply Job_get_ready_readies in Hk as (Hj & Hp & Hsc & Hw).
    destruct r.
    + apply IH in H as (Hj' & Hp' & Hsc' & Hw').
      repeat split; try congruence.
      * eapply Forall2_trans_all; [apply readies_trans|eassumption..].
      * intros Hb k' [<-|Hin]; [|now apply Hw'].
        eapply readies_find_waiting; [exact Hj'|]. now apply Hw.
    + injection H as <- <-. repeat split; auto. discriminate.
Qed.

Lemma find_nodup (l : list Job.t) (j : Job.t) :
  NoDup (map Job.id l) → In j l →
  List.find (fun x => Job.id x =? Job.id j) l = Some j.
Proof.
  induction l as [|x l IH]; intros Hnd Hin; [contradiction|].
  simpl in *. inversion Hnd as [|? ? Hx Hnd']; subst.
  destruct Hin as [->|Hin]; [now rewrite Z.eqb_refl|].
  destruct (Job.id x =? Job.id j) eqn:E; [|now apply IH].
  exfalso. apply Hx. apply Z.eqb_eq in E. rewrite E.
  apply list_elem_of_In. now apply in_map.
Qed.

Lemma check_never_fails (w : World) (scs : list StartCondition.t) :
  all_started w → check_start_conditions w scs ≠ Ok HardFail.
Proof.
  intros Hall. induction scs as [|sc scs IH]; simpl; [discriminate|].
  destruct (StartCondition.condition sc); [| | |exact IH];
    (destruct (preceding_job w sc) as [p|] eqn:Hp; [|discriminate]);
    (assert (Job.status p = Waiting ∨ Job.status p = Running) as Hs
      by (unfold preceding_job in Hp;
          destruct (StartCondition.preceding_job_id sc); [|discriminate];
          apply find_some in Hp as [Hin _]; now apply Hall));
    destruct Hs as [-> | ->]; simpl; discriminate.
Qed.

Lemma Job_start_all_started (fuel : nat) (jid : Z) (w : World) (b : bool)
    (w' : World) :
  Job_start rt fuel jid w = Ok (b, w') → all_started w →
  all_started w' ∧ pipelines w' = pipelines w.
Proof.
  intros H Hall. destruct fuel as [|fuel]; [discriminate|].
  cbn [Job_start] in H. unfold lookup_job in H.
  destruct (find_job w jid) as [j|] eqn:Hj; cbn [mbind result_bind] in H;
    [|discriminate].
  destruct (negb _); [injection H as <- <-; auto|].
  pose proof (check_never_fails w (job_start_conditions w jid) Hall) as Hnf.
  destruct (check_start_conditions _ _) as [[| |]| |];
    cbn [mbind result_bind] in H; try discriminate; try congruence.
  - destruct (Job_run rt fuel jid w) as [w1| |] eqn:Hrun;
      cbn [mbind result_bind] in H; try discriminate.
    injection H as <- <-. apply Job_run_ok in Hrun as (j0 & t & _ & ->).
    split; [|reflexivity]. intros x Hin. simpl in Hin.
    assert (Forall2 (fun a b => b = a ∨ Job.status b = Running) (jobs w)
                    (update_row Job.id jid started (jobs w))) as HF
        by (apply Forall2_update_row; [now left | intros; now right]).
    destruct (Forall2_In_r _ _ _ _ HF Hin) as (a & Ha & [->|Hr]); auto.
  - injection H as <- <-. auto.
Qed.

Lemma start_each_all_started (fuel : nat) (ids : list Z) (w w' : World) :
  start_each (Job_start rt fuel) ids w = Ok w' → all_started w →
  all_started w' ∧ pipelines w' = pipelines w.
Proof.
  revert w. induction ids as [|k ids IH]; intros w H Hall; simpl in H.
  - injection H as <-. auto.
  - destruct (Job_start rt fuel k w) as [[b w1]| |] eqn:Hk; simpl in H;
      try discriminate.
    apply Job_start_all_started in Hk as [Hall1 Hp]; [|exact Hall].
    destruct (IH _ H Hall1) as [Hall' Hp']. split; [exact Hall'|congruence].
Qed.

Lemma invariant_start (fuel : nat) (w w' : World) (b : bool) :
  invariant pid w → Pipeline_start rt fuel pid w = Ok (b, w') →
  b = true ∨ jobs w' = jobs w →
  invariant pid w'.
Proof.
  intros Hinv. unfold Pipeline_start, lookup_pipeline.
  destruct (find_pipeline w pid) as [p|] eqn:Hp; cbn [mbind result_bind];
    [|discriminate].
  destruct (negb _); [intros [= <- <-]; auto|].
  rewrite (owned_pipeline_jobs pid w (inv_owned pid w Hinv)).
  destruct (List.length (jobs w) <? 1)%nat eqn:Hlen; [intros [= <- <-]; auto|].
  destruct (existsb _ (jobs w)); [intros [= <- <-]; auto|].
  destruct (get_ready_each rt fuel _ w) as [[ready w1]| |] eqn:Hready;
    cbn [mbind result_bind]; try discriminate.
  apply get_ready_each_readies in Hready as (Hr & Hpl & _ & Hwait).
  destruct ready; cbn [negb].
  2: { intros [= <- <-] [?|Hsame]; [discriminate|].
       now apply (invariant_same_rows pid w). }
  destruct (start_each _ _ w1) as [w2| |] eqn:Hstart; cbn [mbind result_bind];
    try discriminate.
  intros [= <- <-] _.
  assert (Forall2 keeps (jobs w) (jobs w1)) as Hk1.
  { eapply Forall2_impl; [exact Hr|]. intros x y [->|[Hk _]]; [split|]; auto. }
  assert (all_started w1) as Hall1.
  { intros j Hin. left.
    assert (NoDup (map Job.id (jobs w1))) as Hnd
        by (rewrite (Forall2_keeps_ids _ _ Hk1); apply (inv_nodup pid w Hinv)).
    assert (job_status w1 (Job.id j) = Some Waiting) as Hs.
    { apply Hwait; [reflexivity|].
      rewrite <- (Forall2_keeps_ids _ _ Hk1). now apply in_map. }
    unfold job_status, find_job in Hs. rewrite (find_nodup _ _ Hnd Hin) in Hs.
    simpl in Hs. congruence. }
  pose proof Hstart as Ha.
  apply (start_each_keeps advances advances_refl advances_trans) in Ha;
    [|intros d w0 b0 w3; apply Job_start_advances].
  apply start_each_all_started in Hstart as [Hall2 Hpl2]; [|exact Hall1].
  assert (Forall2 keeps (jobs w) (jobs w2)) as Hk2.
  { eapply Forall2_trans_all; [|exact Hk1|].
    - intros x y z [? ?] [? ?]. split; congruence.
    - eapply Forall2_impl; [apply (adv_jobs _ _ Ha)|]. intros x y Hxy.
      split; [now apply job_advances_id | now apply job_advances_pipeline_id]. }
  assert (find_pipeline w2 pid = Some p) as Hp2
      by (unfold find_pipeline; rewrite Hpl2, Hpl; exact Hp).
  constructor.
  - split.
    + exists (set_pipeline_status Running p).
      now rewrite find_pipeline_update, Z.eqb_refl, Hp2.
    + intros j' Hin'. destruct (Forall2_In_r _ _ _ _ Hk2 Hin') as (j & Hin & _ & Hpid).
      rewrite Hpid. now apply (inv_owned pid w Hinv).
  - change (jobs (update_pipeline pid Running w2)) with (jobs w2).
    rewrite (Forall2_keeps_ids _ _ Hk2). apply (inv_nodup pid w Hinv).
  - intros j Hin. destruct (Hall2 j Hin) as [-> | ->]; discriminate.
  - exists Running. split; [apply (pipeline_status_update _ _ _ _ Hp2)|].
    split; [intros _|auto].
    change (busy (update_pipeline pid Running w2)) with (busy w2).
    assert (jobs w2 ≠ []) as Hne.
    { intros Hnil. apply (f_equal (map Job.id)) in Hnil.
      rewrite (Forall2_keeps_ids _ _ Hk2) in Hnil.
      destruct (jobs w); [simpl in Hlen; discriminate|discriminate]. }
    destruct (jobs w2) as [|j l] eqn:E; [congruence|].
    exists j. unfold busy. rewrite E. split; [now left|].
    unfold non_terminal.
    destruct (Hall2 j ltac:(rewrite E; now left)) as [-> | ->]; simpl;
      intuition discriminate.
  - left. intros j Hin. destruct (Hall2 j Hin) as [-> | ->]; discriminate.
Qed.

End PreservationStart.
Section PipelineInvariant.
Context (rt : Runtime) (pid : Z).

Lemma step_invariant (w w' : World) :
  step rt pid w w' → invariant pid w → invariant pid w'.
Proof.
  intros Hstep Hinv. destruct Hstep as
    [fuel b w w' H Hb | b w w' H | fuel jid b w w' H | w
    | fuel jid w w' H | fuel jid w w' H].
  - exact (invariant_start rt pid fuel w w' b Hinv H Hb).
  - exact (invariant_stop pid w w' b Hinv H).
  - exact (invariant_start_single_job rt pid fuel jid w w' b Hinv H).
  - exact (invariant_job_finished pid w Hinv).
  - exact (invariant_worker_succeeded rt pid fuel jid w w' Hinv H).
  - exact (invariant_worker_failed rt pid fuel jid w w' Hinv H).
Qed.

Lemma reachable_invariant (w0 w : World) :
  initial w0 pid → reachable rt pid w0 w → invariant pid w.
Proof.
  intros Hinit Hreach. induction Hreach as [|w w' _ IH Hstep].
  - now apply initial_invariant.
  - exact (step_invariant w w' Hstep IH).
Qed.

Lemma start_without_jobs (fuel : nat) (w : World) :
  find_pipeline w pid ≠ None → pipeline_jobs w pid = [] →
  Pipeline_start rt fuel pid w = Ok (false, w).
Proof.
  intros Hp Hnil. unfold Pipeline_start, lookup_pipeline.
  destruct (find_pipeline w pid) as [p|]; [|congruence].
  cbn [mbind result_bind]. destruct (negb _); [reflexivity|].
  now rewrite Hnil.
Qed.


End PipelineInvariant.


